(** * Prime-expression solver (SCRIPT.py): shallow embedding and verification

    The program receives a target integer and one "excluded" element of
    the fixed list [PRIMES] (1 and the 25 primes below 100) and returns an
    arithmetic expression over the remaining elements, as a string, with
    the number of literals it uses.

    Modelling conventions.
    - Python [int] is [Z]; token lists are [list string]; the strings are
      built with [str] (Python's [f"{n}"]) and read back with [int].
    - A Python [set] of the small non-negative integers used here is a
      duplicate-free ascending [list Z]: CPython stores such integers at
      the slot given by their value (the tables used have 128 and 512
      or more slots, while the elements are below 98 and 269), so that
      iteration is ascending.  Membership is [in_set].
    - A Python [dict] is a [gmap].
    - [heapq] is embedded as the array algorithm it is ([heappush],
      [heappop] with their sift loops), so that ties are resolved as in
      the library.
    - Loops that are not structural take a [fuel]; running out of fuel is
      the distinguished result [OutOfFuel], Python exceptions are [Raise]. *)

From Stdlib Require Import ZArith List String Ascii Bool Lia.
From Stdlib Require Import DecimalString DecimalZ QArith.
From stdpp Require Import base option list gmap.

Local Open Scope string_scope.
Local Open Scope list_scope.
Local Open Scope Z_scope.

(** ** Results of fallible code *)

Inductive pyerr : Type := KeyError | IndexError | ValueError.

Inductive res (A : Type) : Type :=
| Ok (a : A)
| Raise (e : pyerr)
| OutOfFuel.

Arguments Ok {A} a.
Arguments Raise {A} e.
Arguments OutOfFuel {A}.

#[global] Instance res_ret : MRet res := fun A a => Ok a.

#[global] Instance res_bind : MBind res := fun A B k m =>
  match m with
  | Ok a => k a
  | Raise e => Raise e
  | OutOfFuel => OutOfFuel
  end.

Definition of_option {A : Type} (e : pyerr) (o : option A) : res A :=
  match o with
  | Some a => Ok a
  | None => Raise e
  end.

(** ** Python primitives *)

(** [f"{n}"] *)
Definition str (n : Z) : string := NilZero.string_of_int (Z.to_int n).

(** [int(s)] on a token; [None] stands for [ValueError]. *)
Definition int (s : string) : option Z :=
  match NilZero.int_of_string s with
  | Some d => Some (Z.of_int d)
  | None => None
  end.

(** ["".join(l)] *)
Definition join (l : list string) : string := fold_right String.append "" l.

(** [x in s] for a set of integers *)
Definition in_set (x : Z) (s : list Z) : bool := existsb (Z.eqb x) s.

(** [{p for p in primes if p != prime}] *)
Definition set_without (primes : list Z) (prime : Z) : list Z :=
  List.filter (fun p => negb (p =? prime)) primes.

(** [l[i]] with Python's negative indices; [None] stands for [IndexError]. *)
Definition py_index {A : Type} (l : list A) (i : Z) : option A :=
  let len := Z.of_nat (length l) in
  if (0 <=? i) && (i <? len) then l !! Z.to_nat i
  else if (- len <=? i) && (i <? 0) then l !! Z.to_nat (len + i)
  else None.

(** ** Constants and tables *)

Definition PRIMES : list Z :=
  [1; 2; 3; 5; 7; 11; 13; 17; 19; 23; 29; 31; 37; 41;
   43; 47; 53; 59; 61; 67; 71; 73; 79; 83; 89; 97].

Definition MIN_NON_DECOMPOSABLE : Z := 269.

(** [{x for x in range(1, MIN_NON_DECOMPOSABLE)}] *)
Definition NUMBERS : list Z :=
  map Z.of_nat (seq 1 (Z.to_nat MIN_NON_DECOMPOSABLE - 1)).

(** The pairs of the double comprehension, in enumeration order. *)
Definition pairs (l : list Z) : list (Z * Z) :=
  flat_map (fun p => map (fun q => (p, q)) l) l.

(** [{p * q: (p, q) for p in PRIMES for q in PRIMES if ...}]: a later pair
    replaces an earlier one with the same product. *)
Definition CROSS_PRODUCTS : gmap Z (Z * Z) :=
  fold_left
    (fun m '(p, q) =>
       if (1 <? p) && (1 <? q) && (p * q <? MIN_NON_DECOMPOSABLE)
       then <[p * q := (p, q)]> m else m)
    (pairs PRIMES) ∅.

Definition NUM : Z := 3.
Definition DEN : Z := 1.

(** The set of one excluded prime of [get_unreachable_numbers]. *)
Definition unreachable_of (p : Z) : list Z :=
  let primes := List.filter (fun q => negb (q =? p)) PRIMES in
  let sums_set := map (fun '(x, y) => x + y) (pairs primes) in
  let diff_set := map (fun '(x, y) => x - y) (pairs primes) in
  let prod_set := map (fun '(x, y) => x * y) (pairs primes) in
  let all_sets := sums_set ++ diff_set ++ prod_set ++ primes in
  List.filter (fun x => negb (in_set x all_sets)) NUMBERS.

Definition get_unreachable_numbers : list (Z * list Z) :=
  map (fun p => (p, unreachable_of p)) PRIMES.

Definition UNREACHABLE : list (Z * list Z) :=
  Eval vm_compute in get_unreachable_numbers.

(** [UNREACHABLE[prime]] *)
Fixpoint lookup_table (t : list (Z * list Z)) (prime : Z) : option (list Z) :=
  match t with
  | [] => None
  | (p, s) :: t' => if p =? prime then Some s else lookup_table t' prime
  end.

(** ** Small-number decomposition *)

Fixpoint decompose2_scan (n : Z) (primes ps : list Z) : list string :=
  match ps with
  | [] => []
  | p :: ps' =>
      if p <? n then
        let q := n - p in
        if in_set q primes then [str q; "+"; str p]
        else decompose2_scan n primes ps'
      else
        let q := p - n in
        if in_set q primes then [str q; "-"; str p]
        else decompose2_scan n primes ps'
  end.

Definition decompose2 (n : Z) (primes : list Z) : list string :=
  let '(p, q) := default (0, 0) (CROSS_PRODUCTS !! n) in
  if in_set p primes && in_set q primes then [str q; "*"; str p]
  else decompose2_scan n primes primes.

Fixpoint decompose3_scan (n : Z) (primes xs : list Z) : list string :=
  match xs with
  | [] => []
  | x :: xs' =>
      if x <? n then
        let q := n - x in
        if in_set q primes then [str q; "+"] ++ decompose2 x primes
        else decompose3_scan n primes xs'
      else
        let q := x - n in
        if in_set q primes then [str q; "-"] ++ decompose2 x primes
        else decompose3_scan n primes xs'
  end.

(** [NUMBERS.difference(unreachable)] *)
Definition difference (a b : list Z) : list Z :=
  List.filter (fun x => negb (in_set x b)) a.

Definition decompose3 (n : Z) (primes unreachable : list Z) : list string :=
  decompose3_scan n primes (difference NUMBERS unreachable).

Definition decompose (n : Z) (primes unreachable : list Z) : list string * Z :=
  if negb (in_set n unreachable) then (decompose2 n primes, 2)
  else (decompose3 n primes unreachable, 3).

(** ** Lower bound *)

Fixpoint estimation_loop (fuel : nat) (max_prime x min_count : Z) : res Z :=
  match fuel with
  | O => OutOfFuel
  | S fuel' =>
      if max_prime <? x
      then estimation_loop fuel' max_prime (x / max_prime) (min_count + 1)
      else Ok min_count
  end.

Definition estimation (fuel : nat) (n : Z) (primes : list Z) (prime : Z) : res Z :=
  last_p ← of_option IndexError (py_index primes (-1));
  max_prime ← (if negb (prime =? last_p) then Ok last_p
               else of_option IndexError (py_index primes (-2)));
  estimation_loop fuel max_prime n 0.

(** ** heapq

    The array heap of Python's [heapq], over any element type with its
    [<].  [heap.append(x)] is [heap ++ [x]], [heap[i] = x] is
    [<[i := x]> heap].  The sift loops move a position that strictly
    decreases ([_siftdown]) or increases below the length ([_siftup]), so
    that the length of the heap is enough fuel for them. *)

Section Heapq.
Context {A : Type} (lt : A -> A -> bool).

Fixpoint siftdown_loop (fuel : nat) (heap : list A) (startpos pos : nat)
    (newitem : A) : list A :=
  match fuel with
  | O => <[pos := newitem]> heap
  | S fuel' =>
      if (startpos <? pos)%nat then
        let parentpos := Nat.div2 (pos - 1) in
        match heap !! parentpos with
        | Some parent =>
            if lt newitem parent
            then siftdown_loop fuel' (<[pos := parent]> heap) startpos parentpos newitem
            else <[pos := newitem]> heap
        | None => <[pos := newitem]> heap
        end
      else <[pos := newitem]> heap
  end.

Definition siftdown (heap : list A) (startpos pos : nat) : list A :=
  match heap !! pos with
  | Some newitem => siftdown_loop (length heap) heap startpos pos newitem
  | None => heap
  end.

Fixpoint siftup_loop (fuel : nat) (heap : list A) (endpos pos : nat) : list A * nat :=
  match fuel with
  | O => (heap, pos)
  | S fuel' =>
      let childpos := (2 * pos + 1)%nat in
      if (childpos <? endpos)%nat then
        let rightpos := (childpos + 1)%nat in
        let childpos :=
          match heap !! childpos, heap !! rightpos with
          | Some c, Some r =>
              if (rightpos <? endpos)%nat && negb (lt c r) then rightpos else childpos
          | _, _ => childpos
          end in
        match heap !! childpos with
        | Some c => siftup_loop fuel' (<[pos := c]> heap) endpos childpos
        | None => (heap, pos)
        end
      else (heap, pos)
  end.

Definition siftup (heap : list A) (pos : nat) : list A :=
  match heap !! pos with
  | Some newitem =>
      let '(heap', pos') := siftup_loop (length heap) heap (length heap) pos in
      siftdown (<[pos' := newitem]> heap') pos pos'
  | None => heap
  end.

Definition heappush (heap : list A) (item : A) : list A :=
  siftdown (heap ++ [item]) 0 (length heap).

(** [None] on the empty heap (where Python raises [IndexError]; the
    program pops only inside [while heap:]). *)
Definition heappop (heap : list A) : option (A * list A) :=
  match last heap with
  | None => None
  | Some lastelt =>
      let heap' := removelast heap in
      match heap' with
      | [] => Some (lastelt, [])
      | returnitem :: _ => Some (returnitem, siftup (<[0%nat := lastelt]> heap') 0)
      end
  end.
End Heapq.

(** [list.pop()] *)
Definition pop {A : Type} (l : list A) : res (list A * A) :=
  match last l with
  | Some x => Ok (removelast l, x)
  | None => Raise IndexError
  end.

(** ** Search nodes *)

Record Node : Type := mkNode {
  expression : list string;
  depth : nat;
  count : Z;
  min_result : Z
}.

(** [Node.__lt__]; [_expression[-1]] of a queued node is its pending
    number (the empty string stands for a missing one). *)
Definition Node_lt (self other : Node) : bool :=
  (min_result self <? min_result other)
  || ((min_result self =? min_result other)
      && String.ltb (default "" (last (expression self)))
                    (default "" (last (expression other)))).

(** [<] on the triples [(count, quotient, remainder)] *)
Definition triple_lt (a b : Z * Z * Z) : bool :=
  let '(a1, a2, a3) := a in
  let '(b1, b2, b3) := b in
  (a1 <? b1) || ((a1 =? b1) && ((a2 <? b2) || ((a2 =? b2) && (a3 <? b3)))).

(** ** Remainder enumeration *)

(** The value is the exact quotient; the program computes it in floating
    point and only compares integer remainders with it.  On the one call
    the program makes (bounds 97 and 269, a divisor of [PRIMES]) the exact
    quotient is 97 or not an integer, and the rounding of the float cannot
    change such a comparison; for arbitrary bounds the float and the exact
    quotient can differ. *)
Definition get_remainders_bound (p lower_bound upper_bound : Z) : Q :=
  let num := p - default 0 (py_index PRIMES 0) in
  let den := default 0 (py_index PRIMES (-1)) in
  Qdiv (inject_Z (num * upper_bound + (den - num) * lower_bound)) (inject_Z den).

Definition remainder_cost (rem : Z) (prime_set unreachable : list Z) : Z :=
  if in_set rem prime_set then 1
  else if negb (in_set rem unreachable) then 2 else 3.

(** One test of [quot not in seen or seen[quot] > new_count] with its
    two updates. *)
Definition record_candidate (new_count quot rem : Z)
    (remainders : list (Z * Z * Z)) (seen : gmap Z Z) : list (Z * Z * Z) * gmap Z Z :=
  match seen !! quot with
  | Some c =>
      if c >? new_count
      then (heappush triple_lt remainders (new_count, quot, rem), <[quot := new_count]> seen)
      else (remainders, seen)
  | None => (heappush triple_lt remainders (new_count, quot, rem), <[quot := new_count]> seen)
  end.

Fixpoint under_loop (fuel : nat) (p count : Z) (bound : Q) (prime_set unreachable : list Z)
    (quot rem : Z) (remainders : list (Z * Z * Z)) (seen : gmap Z Z)
    : res (list (Z * Z * Z) * gmap Z Z) :=
  match fuel with
  | O => OutOfFuel
  | S fuel' =>
      if Qle_bool (inject_Z rem) bound then
        let new_count :=
          if negb (rem =? 0) then count + remainder_cost rem prime_set unreachable
          else count in
        let '(remainders, seen) := record_candidate new_count quot rem remainders seen in
        under_loop fuel' p count bound prime_set unreachable (quot - 1) (rem + p) remainders seen
      else Ok (remainders, seen)
  end.

Fixpoint over_loop (fuel : nat) (p count : Z) (bound : Q) (prime_set unreachable : list Z)
    (quot rem : Z) (remainders : list (Z * Z * Z)) (seen : gmap Z Z)
    : res (list (Z * Z * Z) * gmap Z Z) :=
  match fuel with
  | O => OutOfFuel
  | S fuel' =>
      if Qle_bool (inject_Z rem) bound then
        let new_count := count + remainder_cost rem prime_set unreachable in
        let '(remainders, seen) := record_candidate new_count quot rem remainders seen in
        over_loop fuel' p count bound prime_set unreachable (quot + 1) (rem + p) remainders seen
      else Ok (remainders, seen)
  end.

Definition get_possible_remainders (fuel : nat) (p current count : Z) (bound : Q)
    (prime_set : list Z) (seen : gmap Z Z) (unreachable : list Z)
    : res (list (Z * Z * Z) * gmap Z Z) :=
  '(remainders, seen) ←
    under_loop fuel p count bound prime_set unreachable
      (current / p) (current mod p) [] seen;
  over_loop fuel p count bound prime_set unreachable
    (current / p + 1) (p - current mod p) remainders seen.

(** ** Greedy solution *)

(** The loop [while n < div] *)
Fixpoint step_down (fuel : nat) (primes : list Z) (prime n index div : Z) : res (Z * Z) :=
  match fuel with
  | O => OutOfFuel
  | S fuel' =>
      if n <? div then
        let index := index - 1 in
        pi ← of_option IndexError (py_index primes index);
        let index := if pi =? prime then index - 1 else index in
        div ← of_option IndexError (py_index primes index);
        step_down fuel' primes prime n index div
      else Ok (index, div)
  end.

Fixpoint find_random_solution_loop (fuel : nat) (primes : list Z) (prime : Z)
    (prime_set unreachable : list Z) (index div count : Z) (depth : nat)
    (expression : list string) : res (list string * Z) :=
  match fuel with
  | O => OutOfFuel
  | S fuel' =>
      '(expression, tok) ← pop expression;
      n ← of_option ValueError (int tok);
      '(index, div) ← step_down fuel' primes prime n index div;
      let quot := n / div in
      let rem := n mod div in
      let expression := expression ++ [")"] in
      let depth := S depth in
      let '(expression, count) :=
        if negb (rem =? 0) then
          let '(expression, count) :=
            if in_set rem prime_set then (expression ++ [str rem], count + 1)
            else (expression ++ [")"] ++ decompose2 rem prime_set ++ ["("], count + 2) in
          (expression ++ ["+"], count)
        else (expression, count) in
      let expression := expression ++ [str div] in
      let '(expression, count) :=
        if negb (quot =? 1) then (expression ++ ["*"; str quot], count + 1)
        else (expression, count) in
      if (quot =? 1) || in_set quot prime_set then
        Ok (expression ++ replicate depth "(", count)
      else if quot <? MIN_NON_DECOMPOSABLE then
        '(expression, _) ← pop expression;
        let '(expr, extra) := decompose quot prime_set unreachable in
        Ok (expression ++ [")"] ++ expr ++ ["("] ++ replicate depth "(", count + (extra - 1))
      else
        find_random_solution_loop fuel' primes prime prime_set unreachable
          index div count depth expression
  end.

Definition find_random_solution (fuel : nat) (n : Z) (primes : list Z) (prime index : Z)
    (prime_set unreachable : list Z) : res (list string * Z) :=
  pi ← of_option IndexError (py_index primes index);
  div ← (if negb (pi =? prime) then Ok pi
         else of_option IndexError (py_index primes (index - 1)));
  find_random_solution_loop fuel primes prime prime_set unreachable
    index div 1 0 [str n].

(** ** Branch and bound *)

(** The variables of [find_expression] that its loops update. *)
Record State : Type := mkState {
  queue : list Node;
  seen : gmap Z Z;
  expression_result : list string;
  operand_count_result : Z;
  valid_result : bool
}.

Definition set_queue (st : State) (q : list Node) : State :=
  mkState q (seen st) (expression_result st) (operand_count_result st) (valid_result st).

Definition set_seen (st : State) (s : gmap Z Z) : State :=
  mkState (queue st) s (expression_result st) (operand_count_result st) (valid_result st).

Definition set_result (st : State) (e : list string) (c : Z) : State :=
  mkState (queue st) (seen st) e c true.

(** [c > operand_count_result or c == operand_count_result and valid_result] *)
Definition pruned (c : Z) (st : State) : bool :=
  (c >? operand_count_result st) || ((c =? operand_count_result st) && valid_result st).

Section Search.
Context (fuel : nat) (primes : list Z) (prime : Z) (prime_set unreachable : list Z).

(** The body of [while remainders] for one popped triple. *)
Definition candidate (expression : list string) (depth : nat) (p current : Z)
    (st : State) (c : Z * Z * Z) : res State :=
  let '(new_count, quot, rem) := c in
  let is_remainder := p * quot + rem =? current in
  let new_expression := expression ++ [")"] in
  let new_expression :=
    if negb (rem =? 0) then
      (if in_set rem prime_set then new_expression ++ [str rem]
       else
         let '(expr, _) := decompose rem prime_set unreachable in
         new_expression ++ [")"] ++ expr ++ ["("])
      ++ [if is_remainder then "+" else "-"]
    else new_expression in
  let new_expression := new_expression ++ [str p] in
  let '(new_expression, new_count) :=
    if negb (quot =? 1) then (new_expression ++ ["*"; str quot], new_count + 1)
    else (new_expression, new_count) in
  if pruned new_count st then Ok st
  else if (quot =? 1) || in_set quot prime_set then
    Ok (if new_count <=? operand_count_result st
        then set_result st (new_expression ++ replicate depth "(") new_count
        else st)
  else if quot <? MIN_NON_DECOMPOSABLE then
    '(new_expression, _) ← pop new_expression;
    let '(expr, extra) := decompose quot prime_set unreachable in
    let new_expression := new_expression ++ [")"] ++ expr ++ ["("] in
    let new_count := new_count + (extra - 1) in
    Ok (if new_count <=? operand_count_result st
        then set_result st (new_expression ++ replicate depth "(") new_count
        else st)
  else
    est ← estimation fuel quot primes prime;
    let min_count := new_count + est in
    if pruned min_count st then Ok st
    else
      st ← (if operand_count_result st * DEN >=? min_count * NUM then
              '(expr, max_count) ←
                find_random_solution fuel quot primes prime
                  (Z.of_nat (length primes) - 1) prime_set unreachable;
              let max_count := max_count + new_count in
              if max_count <? operand_count_result st then
                '(temp, _) ← pop new_expression;
                Ok (set_result st (temp ++ expr ++ replicate depth "(") max_count)
              else Ok st
            else Ok st);
      Ok (set_queue st
            (heappush Node_lt (queue st)
               (mkNode new_expression (S depth) new_count min_count))).

Fixpoint while_remainders (fuel' : nat) (expression : list string) (depth : nat)
    (p current : Z) (remainders : list (Z * Z * Z)) (st : State) : res State :=
  match fuel' with
  | O => OutOfFuel
  | S f =>
      match heappop triple_lt remainders with
      | None => Ok st
      | Some (c, remainders') =>
          st ← candidate expression depth p current st c;
          while_remainders f expression depth p current remainders' st
      end
  end.

(** [for p in primes] of one expanded node *)
Fixpoint for_primes (ps : list Z) (expression : list string) (depth : nat)
    (count current : Z) (st : State) : res State :=
  match ps with
  | [] => Ok st
  | p :: ps' =>
      if (p =? prime) || (p =? 1) then for_primes ps' expression depth count current st
      else if p >? current then for_primes ps' expression depth count current st
      else
        let bound :=
          get_remainders_bound p (default 0 (py_index PRIMES (-1))) MIN_NON_DECOMPOSABLE in
        '(remainders, seen') ←
          get_possible_remainders fuel p current count bound prime_set (seen st) unreachable;
        st ← while_remainders fuel expression depth p current remainders (set_seen st seen');
        for_primes ps' expression depth count current st
  end.

(** [while queue] *)
Fixpoint search_loop (fuel' : nat) (st : State) : res State :=
  match fuel' with
  | O => OutOfFuel
  | S f =>
      match heappop Node_lt (queue st) with
      | None => Ok st
      | Some (node, queue') =>
          let st := set_queue st queue' in
          if pruned (count node) st then search_loop f st
          else
            '(expression, tok) ← pop (expression node);
            current ← of_option ValueError (int tok);
            if match seen st !! current with
               | Some c => count node - 1 >? c
               | None => false
               end
            then search_loop f st
            else
              st ← for_primes primes expression (depth node) (count node) current st;
              search_loop f st
      end
  end.
End Search.

Definition find_expression (fuel : nat) (n : Z) (primes : list Z) (prime : Z)
    : res (string * Z) :=
  if n =? 0 then
    p0 ← of_option IndexError (py_index primes 0);
    p ← (if negb (p0 =? prime) then Ok p0 else of_option IndexError (py_index primes 1));
    Ok ((str p ++ "-" ++ str p)%string, 2)
  else
    let prime_set := set_without primes prime in
    if in_set n prime_set then Ok (str n, 1)
    else
      unreachable ← of_option KeyError (lookup_table UNREACHABLE prime);
      if n <? MIN_NON_DECOMPOSABLE then
        let '(expression, count) := decompose n prime_set unreachable in
        Ok (join (rev expression), count)
      else
        st ← search_loop fuel primes prime prime_set unreachable fuel
               (mkState [mkNode [str n] 1 1 1] ∅ [] (n + 1) false);
        Ok (join (rev (expression_result st)), operand_count_result st).

(** ** Arithmetic expressions and their value

    The reading of an output string: literals are maximal runs of digits,
    the operators are [+ - * /] with the usual precedence and left
    associativity, and parentheses group.  Values are rationals; a
    division by zero has no value. *)

Inductive expr : Type :=
| Lit (n : Z)
| Add (a b : expr)
| Sub (a b : expr)
| Mul (a b : expr)
| Div (a b : expr).

Fixpoint eval (e : expr) : option Q :=
  match e with
  | Lit n => Some (inject_Z n)
  | Add a b =>
      match eval a, eval b with
      | Some x, Some y => Some (Qplus x y)
      | _, _ => None
      end
  | Sub a b =>
      match eval a, eval b with
      | Some x, Some y => Some (Qminus x y)
      | _, _ => None
      end
  | Mul a b =>
      match eval a, eval b with
      | Some x, Some y => Some (Qmult x y)
      | _, _ => None
      end
  | Div a b =>
      match eval a, eval b with
      | Some x, Some y => if Qeq_bool y (inject_Z 0) then None else Some (Qdiv x y)
      | _, _ => None
      end
  end.

(** The literals of an expression, left to right. *)
Fixpoint lits (e : expr) : list Z :=
  match e with
  | Lit n => [n]
  | Add a b | Sub a b | Mul a b | Div a b => lits a ++ lits b
  end.

Inductive token : Type :=
| TNum (n : Z)
| TPlus | TMinus | TTimes | TSlash | TOpen | TClose
| TBad (c : ascii).

Definition digit_of (c : ascii) : option Z :=
  let n := Z.of_nat (nat_of_ascii c) in
  if (48 <=? n) && (n <=? 57) then Some (n - 48) else None.

Definition token_of (c : ascii) : token :=
  if Ascii.eqb c "+" then TPlus
  else if Ascii.eqb c "-" then TMinus
  else if Ascii.eqb c "*" then TTimes
  else if Ascii.eqb c "/" then TSlash
  else if Ascii.eqb c "(" then TOpen
  else if Ascii.eqb c ")" then TClose
  else TBad c.

Definition flush (acc : option Z) : list token :=
  match acc with
  | Some n => [TNum n]
  | None => []
  end.

Fixpoint lex_go (s : string) (acc : option Z) : list token :=
  match s with
  | EmptyString => flush acc
  | String c s' =>
      match digit_of c with
      | Some d => lex_go s' (Some (10 * default 0 acc + d))
      | None => flush acc ++ token_of c :: lex_go s' None
      end
  end.

Definition lex (s : string) : list token := lex_go s None.

(** The numeric literal tokens of a string. *)
Definition literals (s : string) : list Z :=
  omap (fun t => match t with TNum n => Some n | _ => None end) (lex s).

(** Recursive descent: [expr := term (("+" | "-") term)*],
    [term := factor (("*" | "/") factor)*], [factor := NUM | "(" expr ")"].
    Every call consumes fuel; [parse] gives more than any run on its
    tokens can use. *)
Fixpoint parse_expr (fuel : nat) (ts : list token) : option (expr * list token) :=
  match fuel with
  | O => None
  | S f =>
      match parse_term f ts with
      | Some (e, rest) => parse_expr_rest f e rest
      | None => None
      end
  end
with parse_expr_rest (fuel : nat) (e : expr) (ts : list token) : option (expr * list token) :=
  match fuel with
  | O => None
  | S f =>
      match ts with
      | TPlus :: ts' =>
          match parse_term f ts' with
          | Some (e2, rest) => parse_expr_rest f (Add e e2) rest
          | None => None
          end
      | TMinus :: ts' =>
          match parse_term f ts' with
          | Some (e2, rest) => parse_expr_rest f (Sub e e2) rest
          | None => None
          end
      | _ => Some (e, ts)
      end
  end
with parse_term (fuel : nat) (ts : list token) : option (expr * list token) :=
  match fuel with
  | O => None
  | S f =>
      match parse_factor f ts with
      | Some (e, rest) => parse_term_rest f e rest
      | None => None
      end
  end
with parse_term_rest (fuel : nat) (e : expr) (ts : list token) : option (expr * list token) :=
  match fuel with
  | O => None
  | S f =>
      match ts with
      | TTimes :: ts' =>
          match parse_factor f ts' with
          | Some (e2, rest) => parse_term_rest f (Mul e e2) rest
          | None => None
          end
      | TSlash :: ts' =>
          match parse_factor f ts' with
          | Some (e2, rest) => parse_term_rest f (Div e e2) rest
          | None => None
          end
      | _ => Some (e, ts)
      end
  end
with parse_factor (fuel : nat) (ts : list token) : option (expr * list token) :=
  match fuel with
  | O => None
  | S f =>
      match ts with
      | TNum n :: ts' => Some (Lit n, ts')
      | TOpen :: ts' =>
          match parse_expr f ts' with
          | Some (e, TClose :: rest) => Some (e, rest)
          | _ => None
          end
      | _ => None
      end
  end.

Definition parse (s : string) : option expr :=
  let ts := lex s in
  match parse_expr (4 * length ts + 4) ts with
  | Some (e, []) => Some e
  | _ => None
  end.

(** The value of an output string, if it is a well-formed expression. *)
Definition value (s : string) : option Q :=
  match parse s with
  | Some e => eval e
  | None => None
  end.

(** [evaluates_to s n]: the string is a well-formed expression whose value
    is exactly [n]. *)
Definition evaluates_to (s : string) (n : Z) : bool :=
  match value s with
  | Some q => Qeq_bool q (inject_Z n)
  | None => false
  end.

(** * Verification *)

(** [prime_set] of [find_expression]: the elements of [PRIMES] that may
    be used when [prime] is excluded. *)
Abbreviation usable prime := (set_without PRIMES prime).

(** An expression all of whose literals may be used. *)
Definition uses_only (prime : Z) (e : expr) : bool :=
  forallb (fun l => in_set l (usable prime)) (lits e).

(** The number of numeric literal tokens of a string. *)
Definition literal_count (s : string) : Z := Z.of_nat (length (literals s)).

(** [range n] is [0; 1; ...; n - 1]. *)
Definition range (n : nat) : list Z := map Z.of_nat (seq 0 n).

(** ** Elementary facts *)

Lemma in_set_true (x : Z) (s : list Z) : in_set x s = true <-> In x s.
Proof.
  unfold in_set. rewrite existsb_exists. split.
  - intros (y & Hy & Heq). apply Z.eqb_eq in Heq. now subst.
  - intros H. exists x. split; [assumption | apply Z.eqb_refl].
Qed.

Lemma in_set_false (x : Z) (s : list Z) : in_set x s = false <-> ~ In x s.
Proof.
  rewrite <- in_set_true. destruct (in_set x s); split; congruence.
Qed.

Lemma in_range (n : nat) (z : Z) : 0 <= z < Z.of_nat n -> In z (range n).
Proof.
  intros H. unfold range. apply in_map_iff. exists (Z.to_nat z). split.
  - lia.
  - apply in_seq. lia.
Qed.

Lemma usable_spec (prime x : Z) : In x (usable prime) <-> In x PRIMES /\ x <> prime.
Proof.
  unfold set_without. rewrite filter_In, negb_true_iff, Z.eqb_neq. tauto.
Qed.

Lemma PRIMES_bounds (x : Z) : In x PRIMES -> 1 <= x <= 97.
Proof.
  intros H. assert (Hall : forallb (fun y => (1 <=? y) && (y <=? 97)) PRIMES = true)
    by reflexivity.
  rewrite forallb_forall in Hall. specialize (Hall x H). lia.
Qed.

(** Every table entry exists for an element of [PRIMES] and lies in
    [NUMBERS]. *)
Lemma lookup_table_PRIMES (prime : Z) :
  In prime PRIMES ->
  exists u, lookup_table UNREACHABLE prime = Some u /\ forall x, In x u -> 1 <= x < 269.
Proof.
  intros H.
  assert (Hall : forallb
            (fun p => match lookup_table UNREACHABLE p with
                      | Some u => forallb (fun x => (1 <=? x) && (x <? 269)) u
                      | None => false
                      end) PRIMES = true) by (vm_compute; reflexivity).
  rewrite forallb_forall in Hall. specialize (Hall prime H).
  destruct (lookup_table UNREACHABLE prime) as [u|]; [|discriminate].
  exists u. split; [reflexivity|]. intros x Hx.
  rewrite forallb_forall in Hall. specialize (Hall x Hx). lia.
Qed.

(** ** The target 0 *)

(** C8 (as the program behaves).  For every excluded prime the target 0 is
    answered by the self-subtraction [q-q] with count 2, where [q] is the
    first element of [PRIMES] that is not excluded: [q = 1], and [q = 2]
    only when 1 itself is excluded.  With 97 excluded the answer is
    ["1-1"]. *)
Theorem find_expression_zero :
  (forall (fuel : nat) (prime : Z),
      let q := if prime =? 1 then 2 else 1 in
      In q PRIMES /\ q <> prime /\
      find_expression fuel 0 PRIMES prime = Ok ((str q ++ "-" ++ str q)%string, 2) /\
      literals (str q ++ "-" ++ str q)%string = [q; q] /\
      evaluates_to (str q ++ "-" ++ str q)%string 0 = true) /\
  (forall fuel : nat, find_expression fuel 0 PRIMES 97 = Ok ("1-1", 2)).
Proof.
  split.
  - intros fuel prime q.
    assert (Hq : In q PRIMES /\ q <> prime).
    { unfold q. destruct (Z.eqb_spec prime 1) as [Heq | Hne]; simpl; split;
        first [tauto | lia | congruence]. }
    destruct Hq as [Hq1 Hq2]. split; [exact Hq1|]. split; [exact Hq2|].
    assert (Hrun : find_expression fuel 0 PRIMES prime
                   = Ok ((str q ++ "-" ++ str q)%string, 2)).
    { unfold find_expression. rewrite Z.eqb_refl.
      change (py_index PRIMES 0) with (Some 1).
      change (py_index PRIMES 1) with (Some 2).
      unfold of_option, mbind, res_bind, q.
      rewrite (Z.eqb_sym 1 prime).
      destruct (prime =? 1); vm_compute; reflexivity. }
    split; [exact Hrun|].
    unfold q. destruct (prime =? 1); split; vm_compute; reflexivity.
  - intros fuel. unfold find_expression. rewrite Z.eqb_refl.
    vm_compute. reflexivity.
Qed.

(** C8 as stated fails: with 97 excluded the answer to 0 is not ["2-2"]. *)
Lemma find_expression_zero_97_not_2_2 :
  ~ (exists fuel : nat, find_expression fuel 0 PRIMES 97 = Ok ("2-2", 2)).
Proof.
  intros [fuel H]. destruct find_expression_zero as [_ H97].
  rewrite H97 in H. discriminate H.
Qed.

(** ** Negative targets *)




(** ** Small numbers *)

(** The values of the sums, differences and products of two usable
    primes. *)
Definition two_prime_values (prime : Z) : list Z :=
  flat_map (fun '(a, b) => [a + b; a - b; a * b]) (pairs (usable prime)).

Definition decompose_ok (prime n : Z) : bool :=
  match lookup_table UNREACHABLE prime with
  | None => false
  | Some u =>
      let '(e, c) := decompose n (usable prime) u in
      let s := join (rev e) in
      negb (Nat.eqb (length e) 0)
      && evaluates_to s n
      && (literal_count s =? c)
      && forallb (fun l => in_set l (usable prime)) (literals s)
      && (c =? (if in_set n (two_prime_values prime) then 2 else 3))
      && Bool.eqb (in_set n u) (negb (in_set n (two_prime_values prime)))
  end.

Lemma decompose_ok_all :
  forallb (fun prime =>
             forallb (fun n => in_set n (usable prime) || decompose_ok prime n) (range 269))
          PRIMES = true.
Proof. vm_compute. reflexivity. Qed.

(** C5 (as the program behaves).  For every excluded prime and every
    [0 <= n < 269] that is not itself a usable prime, [decompose] returns a
    non-empty token list whose expression evaluates to [n], uses only
    usable primes, and has exactly 2 literals when [n] is a sum, difference
    or product of two usable primes and exactly 3 otherwise; the count
    returned is that number.  In particular [decompose3] is never left
    with an incomplete expression. *)
Theorem decompose_small (prime n : Z) :
  In prime PRIMES -> 0 <= n < 269 -> ~ In n (usable prime) ->
  exists (u : list Z) (e : list string) (c : Z),
    lookup_table UNREACHABLE prime = Some u /\
    decompose n (usable prime) u = (e, c) /\
    e <> [] /\
    evaluates_to (join (rev e)) n = true /\
    literal_count (join (rev e)) = c /\
    (forall l, In l (literals (join (rev e))) -> In l (usable prime)) /\
    c = (if in_set n (two_prime_values prime) then 2 else 3) /\
    in_set n u = negb (in_set n (two_prime_values prime)).
Proof.
  intros Hp Hn Hnot.
  pose proof decompose_ok_all as Hall.
  rewrite forallb_forall in Hall. specialize (Hall prime Hp).
  rewrite forallb_forall in Hall. specialize (Hall n (in_range 269 n Hn)).
  apply in_set_false in Hnot. rewrite Hnot in Hall. simpl in Hall.
  unfold decompose_ok in Hall.
  destruct (lookup_table UNREACHABLE prime) as [u|]; [|discriminate].
  destruct (decompose n (usable prime) u) as [e c] eqn:Hd.
  apply andb_prop in Hall. destruct Hall as [Hall H6].
  apply andb_prop in Hall. destruct Hall as [Hall H5].
  apply andb_prop in Hall. destruct Hall as [Hall H4].
  apply andb_prop in Hall. destruct Hall as [Hall H3].
  apply andb_prop in Hall. destruct Hall as [H1 H2].
  exists u, e, c.
  split; [reflexivity|]. split; [exact Hd|].
  split. { intros He. rewrite He in H1. discriminate H1. }
  split. { exact H2. }
  split. { apply Z.eqb_eq. exact H3. }
  split. { intros l Hl. apply in_set_true. rewrite forallb_forall in H4. apply H4. exact Hl. }
  split. { apply Z.eqb_eq. exact H5. }
  apply Bool.eqb_prop. exact H6.
Qed.

Lemma decompose_small_witness :
  exists (u : list Z) (e : list string) (c : Z),
    lookup_table UNREACHABLE 2 = Some u /\
    decompose 27 (usable 2) u = (e, c) /\
    e <> [] /\
    evaluates_to (join (rev e)) 27 = true /\
    literal_count (join (rev e)) = c /\
    (forall l, In l (literals (join (rev e))) -> In l (usable 2)) /\
    c = (if in_set 27 (two_prime_values 2) then 2 else 3) /\
    in_set 27 u = negb (in_set 27 (two_prime_values 2)).
Proof.
  apply (decompose_small 2 27).
  - vm_compute. tauto.
  - lia.
  - apply in_set_false. vm_compute. reflexivity.
Defined.

(** C5 as stated fails on a usable prime: with 2 excluded, 97 is no sum,
    difference or product of two usable primes other than through 1 * 97,
    which [decompose2] does not try, and [decompose] returns the empty
    token list with count 2. *)
Lemma decompose_97_without_2_empty :
  exists u : list Z,
    lookup_table UNREACHABLE 2 = Some u /\ decompose 97 (usable 2) u = ([], 2).
Proof.
  eexists. split; [reflexivity|]. vm_compute. reflexivity.
Qed.

(** ** The lower bound *)

(** The largest usable prime: [max_prime] of [estimation]. *)
Definition max_usable (prime : Z) : Z := if prime =? 97 then 89 else 97.

Lemma max_usable_ge_2 (prime : Z) : 2 <= max_usable prime.
Proof. unfold max_usable. destruct (prime =? 97); lia. Qed.

Lemma usable_le_max (prime x : Z) : In x (usable prime) -> 1 <= x <= max_usable prime.
Proof.
  intros H. apply usable_spec in H. destruct H as [Hin Hne].
  assert (Hall : forallb (fun y => (1 <=? y) && ((y =? 97) || (y <=? 89))) PRIMES = true)
    by (vm_compute; reflexivity).
  rewrite forallb_forall in Hall. specialize (Hall x Hin).
  unfold max_usable. destruct (Z.eqb_spec prime 97) as [-> | Hp]; lia.
Qed.

Lemma estimation_unfold (fuel : nat) (n prime : Z) :
  estimation fuel n PRIMES prime = estimation_loop fuel (max_usable prime) n 0.
Proof.
  unfold estimation.
  change (py_index PRIMES (-1)) with (Some 97).
  change (py_index PRIMES (-2)) with (Some 89).
  unfold of_option, mbind, res_bind, max_usable.
  destruct (prime =? 97); reflexivity.
Qed.

Lemma estimation_loop_total (M : Z) (fuel : nat) :
  2 <= M -> forall x c : Z, (Z.to_nat x < fuel)%nat ->
  exists k, estimation_loop fuel M x c = Ok k.
Proof.
  intros HM. induction fuel as [|fuel IH]; intros x c Hf; [lia|].
  cbn [estimation_loop]. destruct (Z.ltb_spec M x) as [Hlt | Hge].
  - apply IH. assert (x / M < x) by (apply Z.div_lt; lia).
    assert (0 <= x / M) by (apply Z.div_pos; lia). lia.
  - eexists. reflexivity.
Qed.

Lemma estimation_loop_bound (M : Z) (fuel : nat) :
  2 <= M -> forall x c k : Z,
  estimation_loop fuel M x c = Ok k -> c <= k /\ (c < k -> M ^ (k - c) < x).
Proof.
  intros HM. induction fuel as [|fuel IH]; intros x c k H; [discriminate H|].
  cbn [estimation_loop] in H. destruct (Z.ltb_spec M x) as [Hlt | Hge].
  - apply IH in H. destruct H as [Hle Hpow]. split; [lia|]. intros _.
    destruct (Z.eq_dec k (c + 1)) as [-> | Hne].
    + replace (c + 1 - c) with 1 by lia. rewrite Z.pow_1_r. exact Hlt.
    + assert (Hlt' : c + 1 < k) by lia. specialize (Hpow Hlt').
      replace (k - c) with (Z.succ (k - (c + 1))) by lia.
      rewrite Z.pow_succ_r by lia.
      assert (Hmul : M * (x / M) <= x) by (apply Z.mul_div_le; lia).
      assert (M * (M ^ (k - (c + 1)) + 1) <= M * (x / M))
        by (apply Z.mul_le_mono_nonneg_l; lia).
      lia.
  - injection H as <-. split; lia.
Qed.

(** *** The value of an expression is bounded by its literals *)

Lemma abs_mul_le (a b A B : Z) : Z.abs a <= A -> Z.abs b <= B -> Z.abs (a * b) <= A * B.
Proof.
  intros Ha Hb. rewrite Z.abs_mul.
  apply Z.mul_le_mono_nonneg; try assumption; apply Z.abs_nonneg.
Qed.

Definition lit_count (e : expr) : Z := Z.of_nat (length (lits e)).

Lemma lit_count_pos (e : expr) : 1 <= lit_count e.
Proof.
  unfold lit_count. induction e; cbn [lits]; rewrite ?length_app; cbn [length]; lia.
Qed.

Lemma lit_count_bin (a b : expr) :
  Z.of_nat (length (lits a ++ lits b)) = lit_count a + lit_count b.
Proof. unfold lit_count. rewrite length_app. lia. Qed.

Section Bound.
Variable M : Z.
Hypothesis HM : 2 <= M.

(** The invariant on the unreduced fraction: the numerator is at most
    [M ^ m] and the denominator at most [M ^ (m - 1)] for [m] literals. *)
Definition bounded (m : Z) (q : Q) : Prop :=
  Z.abs (Qnum q) <= M ^ m /\ Z.pos (Qden q) <= M ^ (m - 1).

Lemma pow_split (m1 m2 : Z) : 1 <= m1 -> 1 <= m2 ->
  M ^ (m1 + m2) = M * M * (M ^ (m1 - 1) * M ^ (m2 - 1))
  /\ M ^ (m1 + m2 - 1) = M * (M ^ (m1 - 1) * M ^ (m2 - 1))
  /\ M ^ m1 = M * M ^ (m1 - 1) /\ M ^ m2 = M * M ^ (m2 - 1)
  /\ 1 <= M ^ (m1 - 1) /\ 1 <= M ^ (m2 - 1).
Proof.
  intros H1 H2.
  assert (E1 : M ^ m1 = M * M ^ (m1 - 1)).
  { replace m1 with (Z.succ (m1 - 1)) at 1 by lia. apply Z.pow_succ_r. lia. }
  assert (E2 : M ^ m2 = M * M ^ (m2 - 1)).
  { replace m2 with (Z.succ (m2 - 1)) at 1 by lia. apply Z.pow_succ_r. lia. }
  assert (P1 : 0 < M ^ (m1 - 1)) by (apply Z.pow_pos_nonneg; lia).
  assert (P2 : 0 < M ^ (m2 - 1)) by (apply Z.pow_pos_nonneg; lia).
  repeat split; try lia.
  - rewrite Z.pow_add_r by lia. rewrite E1, E2. ring.
  - replace (m1 + m2 - 1) with (m1 + (m2 - 1)) by lia.
    rewrite Z.pow_add_r by lia. rewrite E1. ring.
Qed.

Lemma bounded_plus (m1 m2 : Z) (x y : Q) : 1 <= m1 -> 1 <= m2 ->
  bounded m1 x -> bounded m2 y -> bounded (m1 + m2) (Qplus x y).
Proof.
  intros H1 H2 [Hxn Hxd] [Hyn Hyd].
  destruct (pow_split m1 m2 H1 H2) as (E & E' & E1 & E2 & P1 & P2).
  rewrite E1 in Hxn. rewrite E2 in Hyn.
  unfold bounded. rewrite E, E'. cbn [Qplus Qnum Qden]. rewrite Pos2Z.inj_mul.
  set (B1 := M ^ (m1 - 1)) in *. set (B2 := M ^ (m2 - 1)) in *.
  set (d1 := Z.pos (Qden x)) in *. set (d2 := Z.pos (Qden y)) in *.
  assert (D1 : 1 <= d1) by (unfold d1; lia).
  assert (D2 : 1 <= d2) by (unfold d2; lia).
  assert (Ha : Z.abs (Qnum x * d2) <= (M * B1) * B2)
    by (apply abs_mul_le; [assumption | lia]).
  assert (Hb : Z.abs (Qnum y * d1) <= (M * B2) * B1)
    by (apply abs_mul_le; [assumption | lia]).
  assert (Hd : d1 * d2 <= B1 * B2) by (apply Z.mul_le_mono_nonneg; lia).
  assert (0 <= B1 * B2) by lia.
  split.
  - eapply Z.le_trans; [apply Z.abs_triangle|]. nia.
  - nia.
Qed.

Lemma bounded_opp (m : Z) (y : Q) : bounded m y -> bounded m (Qopp y).
Proof.
  intros [Hn Hd]. unfold bounded. cbn [Qopp Qnum Qden]. rewrite Z.abs_opp. tauto.
Qed.

Lemma bounded_mult (m1 m2 : Z) (x y : Q) : 1 <= m1 -> 1 <= m2 ->
  bounded m1 x -> bounded m2 y -> bounded (m1 + m2) (Qmult x y).
Proof.
  intros H1 H2 [Hxn Hxd] [Hyn Hyd].
  destruct (pow_split m1 m2 H1 H2) as (E & E' & E1 & E2 & P1 & P2).
  rewrite E1 in Hxn. rewrite E2 in Hyn.
  unfold bounded. rewrite E, E'. cbn [Qmult Qnum Qden]. rewrite Pos2Z.inj_mul.
  set (B1 := M ^ (m1 - 1)) in *. set (B2 := M ^ (m2 - 1)) in *.
  set (d1 := Z.pos (Qden x)) in *. set (d2 := Z.pos (Qden y)) in *.
  assert (D1 : 1 <= d1) by (unfold d1; lia).
  assert (D2 : 1 <= d2) by (unfold d2; lia).
  assert (Ha : Z.abs (Qnum x * Qnum y) <= (M * B1) * (M * B2))
    by (apply abs_mul_le; assumption).
  assert (Hd : d1 * d2 <= B1 * B2) by (apply Z.mul_le_mono_nonneg; lia).
  split; nia.
Qed.

(** The inverse of a non-zero [m]-literal value exchanges the two
    bounds. *)
Lemma bounded_inv (m : Z) (y : Q) : 1 <= m -> Qnum y <> 0 -> bounded m y ->
  Z.abs (Qnum (Qinv y)) <= M ^ (m - 1) /\ Z.pos (Qden (Qinv y)) <= M ^ m.
Proof.
  intros Hm Hne [Hn Hd]. unfold Qinv.
  destruct (Qnum y) as [|p|p] eqn:Hy; [congruence| |]; cbn [Qnum Qden].
  - split; [rewrite Z.abs_eq by lia; exact Hd | rewrite Z.abs_eq in Hn by lia; exact Hn].
  - split; [rewrite <- Pos2Z.opp_pos, Z.abs_opp, Z.abs_eq by lia; exact Hd |].
    rewrite <- Pos2Z.opp_pos, Z.abs_opp, Z.abs_eq in Hn by lia. exact Hn.
Qed.

Lemma bounded_div (m1 m2 : Z) (x y : Q) : 1 <= m1 -> 1 <= m2 ->
  Qnum y <> 0 -> bounded m1 x -> bounded m2 y -> bounded (m1 + m2) (Qdiv x y).
Proof.
  intros H1 H2 Hne [Hxn Hxd] Hy.
  destruct (bounded_inv m2 y H2 Hne Hy) as [Hin Hid].
  destruct (pow_split m1 m2 H1 H2) as (E & E' & E1 & E2 & P1 & P2).
  rewrite E1 in Hxn. rewrite E2 in Hid.
  unfold bounded, Qdiv. rewrite E, E'. cbn [Qmult Qnum Qden]. rewrite Pos2Z.inj_mul.
  set (B1 := M ^ (m1 - 1)) in *. set (B2 := M ^ (m2 - 1)) in *.
  set (d1 := Z.pos (Qden x)) in *. set (d2 := Z.pos (Qden (Qinv y))) in *.
  assert (D1 : 1 <= d1) by (unfold d1; lia).
  assert (D2 : 1 <= d2) by (unfold d2; lia).
  assert (Ha : Z.abs (Qnum x * Qnum (Qinv y)) <= (M * B1) * B2)
    by (apply abs_mul_le; assumption).
  assert (Hd : d1 * d2 <= B1 * (M * B2)) by (apply Z.mul_le_mono_nonneg; lia).
  split; nia.
Qed.

Lemma Qeq_bool_zero_num (y : Q) : Qeq_bool y (inject_Z 0) = false -> Qnum y <> 0.
Proof.
  intros H Hz. unfold Qeq_bool, inject_Z in H. cbn [Qnum Qden] in H.
  rewrite Hz in H. cbn in H. discriminate H.
Qed.

Lemma eval_bounded (e : expr) :
  (forall l, In l (lits e) -> 1 <= l <= M) ->
  forall q, eval e = Some q -> bounded (lit_count e) q.
Proof.
  induction e as [n | a IHa b IHb | a IHa b IHb | a IHa b IHb | a IHa b IHb];
    intros Hl q Hq; cbn [eval lits] in *.
  - injection Hq as <-. unfold bounded, lit_count. cbn.
    specialize (Hl n (or_introl eq_refl)). rewrite Z.pow_1_r. lia.
  - destruct (eval a) as [x|]; [|discriminate]. destruct (eval b) as [y|]; [|discriminate].
    injection Hq as <-. unfold lit_count. cbn [lits]. rewrite lit_count_bin.
    apply bounded_plus; try apply lit_count_pos;
      [apply IHa | apply IHb]; try reflexivity; intros l Hin; apply Hl, in_or_app; tauto.
  - destruct (eval a) as [x|]; [|discriminate]. destruct (eval b) as [y|]; [|discriminate].
    injection Hq as <-. unfold lit_count. cbn [lits]. rewrite lit_count_bin.
    unfold Qminus. apply bounded_plus; try apply lit_count_pos;
      [apply IHa | apply bounded_opp, IHb]; try reflexivity;
      intros l Hin; apply Hl, in_or_app; tauto.
  - destruct (eval a) as [x|]; [|discriminate]. destruct (eval b) as [y|]; [|discriminate].
    injection Hq as <-. unfold lit_count. cbn [lits]. rewrite lit_count_bin.
    apply bounded_mult; try apply lit_count_pos;
      [apply IHa | apply IHb]; try reflexivity; intros l Hin; apply Hl, in_or_app; tauto.
  - destruct (eval a) as [x|]; [|discriminate]. destruct (eval b) as [y|]; [|discriminate].
    destruct (Qeq_bool y (inject_Z 0)) eqn:Hz; [discriminate|].
    injection Hq as <-. unfold lit_count. cbn [lits]. rewrite lit_count_bin.
    apply bounded_div; try apply lit_count_pos;
      [apply Qeq_bool_zero_num; exact Hz | apply IHa | apply IHb]; try reflexivity;
      intros l Hin; apply Hl, in_or_app; tauto.
Qed.

(** An integer value of an expression with [m] literals is at most
    [M ^ m]. *)
Lemma eval_integer_bound (e : expr) (q : Q) (n : Z) :
  (forall l, In l (lits e) -> 1 <= l <= M) ->
  eval e = Some q -> Qeq q (inject_Z n) -> Z.abs n <= M ^ lit_count e.
Proof.
  intros Hl Hq Heq. destruct (eval_bounded e Hl q Hq) as [Hn _].
  unfold Qeq, inject_Z in Heq. cbn [Qnum Qden] in Heq.
  rewrite Z.mul_1_r in Heq. rewrite Heq in Hn. rewrite Z.abs_mul in Hn.
  assert (1 <= Z.abs (Z.pos (Qden q))) by lia.
  assert (0 <= Z.abs n) by apply Z.abs_nonneg. nia.
Qed.
End Bound.

Lemma uses_only_lits (prime : Z) (e : expr) :
  uses_only prime e = true -> forall l, In l (lits e) -> 1 <= l <= max_usable prime.
Proof.
  unfold uses_only. rewrite forallb_forall. intros H l Hl.
  apply usable_le_max, in_set_true, H, Hl.
Qed.

(** C6.  [estimation] never exceeds the number of literals of an
    expression over the usable primes, with [+ - * /] in exact rational
    arithmetic, that evaluates to [n]: it is a lower bound of the minimal
    number of literals.  Any fuel above [n] is enough for it to return. *)
Theorem estimation_admissible (fuel : nat) (n prime : Z) (e : expr) (q : Q) :
  (Z.to_nat n < fuel)%nat ->
  uses_only prime e = true -> eval e = Some q -> Qeq q (inject_Z n) ->
  exists k, estimation fuel n PRIMES prime = Ok k /\ k <= Z.of_nat (length (lits e)).
Proof.
  intros Hf Hu Hq Heq. rewrite estimation_unfold.
  pose proof (max_usable_ge_2 prime) as HM.
  destruct (estimation_loop_total (max_usable prime) fuel HM n 0 Hf) as [k Hk].
  exists k. split; [exact Hk|].
  destruct (estimation_loop_bound (max_usable prime) fuel HM n 0 k Hk) as [H0 Hpow].
  pose proof (eval_integer_bound (max_usable prime) HM e q n (uses_only_lits prime e Hu) Hq Heq)
    as Hn.
  fold (lit_count e). pose proof (lit_count_pos e) as Hpos.
  destruct (Z.le_gt_cases k (lit_count e)) as [Hle | Hgt]; [exact Hle|].
  exfalso. assert (Hk0 : 0 < k) by lia. specialize (Hpow Hk0).
  rewrite Z.sub_0_r in Hpow.
  assert (max_usable prime ^ lit_count e <= max_usable prime ^ k)
    by (apply Z.pow_le_mono_r; lia).
  lia.
Qed.

Lemma estimation_admissible_witness :
  exists k, estimation 200 194 PRIMES 2 = Ok k
            /\ k <= Z.of_nat (length (lits (Add (Lit 97) (Lit 97)))).
Proof.
  apply (estimation_admissible 200 194 2 (Add (Lit 97) (Lit 97)) (Qplus (inject_Z 97) (inject_Z 97))).
  - vm_compute. lia.
  - vm_compute. reflexivity.
  - vm_compute. reflexivity.
  - reflexivity.
Defined.

(** ** Minimality *)












(** ** Tokens and strings *)

Lemma to_int_not_nil (z : Z) : Z.to_int z <> Decimal.Pos Decimal.Nil /\ Z.to_int z <> Decimal.Neg Decimal.Nil.
Proof.
  destruct z as [|p|p]; cbn [Z.to_int]; split; try discriminate;
    intros H; injection H as H; exact (DecimalPos.Unsigned.to_uint_nonnil p H).
Qed.

(** [int(f"{z}") == z] *)
Lemma int_str (z : Z) : int (str z) = Some z.
Proof.
  unfold int, str. destruct (to_int_not_nil z) as [H1 H2].
  rewrite NilZero.isi by assumption. rewrite DecimalZ.of_to. reflexivity.
Qed.

(** [list.pop()] returns the last element and leaves the others. *)
Lemma pop_snoc {A : Type} (l : list A) (x : A) : pop (l ++ [x]) = Ok (l, x).
Proof.
  unfold pop. rewrite last_snoc. rewrite removelast_last. reflexivity.
Qed.

Lemma pop_Ok {A : Type} (l l' : list A) (x : A) : pop l = Ok (l', x) -> l = l' ++ [x].
Proof.
  unfold pop. destruct (last l) as [y|] eqn:Hl; [|discriminate].
  intros H. injection H as <- <-.
  destruct l as [|a l] using rev_ind; [discriminate|].
  rewrite last_snoc in Hl. injection Hl as ->. rewrite removelast_last. reflexivity.
Qed.

(** The value that the lexer accumulates over a run of digits. *)
Fixpoint horner (u : Decimal.uint) (a : Z) : Z :=
  match u with
  | Decimal.Nil => a
  | Decimal.D0 l => horner l (10 * a + 0)
  | Decimal.D1 l => horner l (10 * a + 1)
  | Decimal.D2 l => horner l (10 * a + 2)
  | Decimal.D3 l => horner l (10 * a + 3)
  | Decimal.D4 l => horner l (10 * a + 4)
  | Decimal.D5 l => horner l (10 * a + 5)
  | Decimal.D6 l => horner l (10 * a + 6)
  | Decimal.D7 l => horner l (10 * a + 7)
  | Decimal.D8 l => horner l (10 * a + 8)
  | Decimal.D9 l => horner l (10 * a + 9)
  end.

Lemma horner_pos (u : Decimal.uint) (p : positive) :
  horner u (Z.pos p) = Z.pos (Pos.of_uint_acc u p).
Proof.
  revert p. induction u; intros p; cbn [horner Pos.of_uint_acc]; try reflexivity;
    match goal with
    | |- horner _ ?a = Z.pos (Pos.of_uint_acc _ ?q) =>
        replace a with (Z.pos q) by lia; apply IHu
    end.
Qed.

Lemma horner_zero (u : Decimal.uint) : horner u 0 = Z.of_N (Pos.of_uint u).
Proof.
  induction u; cbn [horner Pos.of_uint]; try reflexivity;
    try (rewrite <- IHu; reflexivity);
    match goal with
    | |- horner _ ?a = Z.of_N (N.pos (Pos.of_uint_acc _ ?q)) =>
        change a with (Z.pos q); rewrite horner_pos; reflexivity
    end.
Qed.

Lemma lex_go_uint (u : Decimal.uint) (rest : string) (a : Z) :
  u <> Decimal.Nil ->
  lex_go (NilEmpty.string_of_uint u ++ rest) (Some a) = lex_go rest (Some (horner u a))
  /\ lex_go (NilEmpty.string_of_uint u ++ rest) None = lex_go rest (Some (horner u 0)).
Proof.
  assert (Hgen : forall v b,
             lex_go (NilEmpty.string_of_uint v ++ rest) (Some b) = lex_go rest (Some (horner v b))).
  { induction v; intros b; cbn [NilEmpty.string_of_uint String.append horner];
      try reflexivity; cbn [lex_go]; (cbv [digit_of]; cbn); apply IHv. }
  intros Hu. split; [apply Hgen|].
  destruct u; try congruence; cbn [NilEmpty.string_of_uint String.append horner];
    cbn [lex_go]; (cbv [digit_of]; cbn); apply Hgen.
Qed.

(** A non-negative number is written with its digits and read back by
    the lexer. *)
Lemma lex_go_str (z : Z) (rest : string) :
  0 <= z -> lex_go (str z ++ rest) None = lex_go rest (Some z).
Proof.
  intros Hz. unfold str.
  assert (Hu : exists u, Z.to_int z = Decimal.Pos u /\ u <> Decimal.Nil /\ horner u 0 = z).
  { destruct z as [|p|p]; [| |lia].
    - exists (Decimal.D0 Decimal.Nil). repeat split; discriminate.
    - exists (Pos.to_uint p). split; [reflexivity|]. split.
      + apply DecimalPos.Unsigned.to_uint_nonnil.
      + rewrite horner_zero, DecimalPos.Unsigned.of_to. reflexivity. }
  destruct Hu as (u & -> & Hnil & Hval). cbn [NilZero.string_of_int].
  replace (NilZero.string_of_uint u) with (NilEmpty.string_of_uint u)
    by (destruct u; congruence || reflexivity).
  destruct (lex_go_uint u rest 0 Hnil) as [_ H]. rewrite H, Hval. reflexivity.
Qed.

(** The operator and parenthesis tokens of the program. *)
Definition is_optok (t : string) : bool :=
  String.eqb t ")" || String.eqb t "(" || String.eqb t "+"
  || String.eqb t "-" || String.eqb t "*".

Lemma str_not_optok (z : Z) : 0 <= z -> is_optok (str z) = false.
Proof.
  intros Hz. unfold str.
  destruct z as [|p|p]; [reflexivity| |lia].
  cbn [Z.to_int NilZero.string_of_int].
  pose proof (DecimalPos.Unsigned.to_uint_nonnil p) as Hnil.
  destruct (Pos.to_uint p) as [|u|u|u|u|u|u|u|u|u|u]; try congruence; reflexivity.
Qed.

(** The token that the lexer makes of a program token. *)
Definition tok_of_string (t : string) : token :=
  if String.eqb t ")" then TClose
  else if String.eqb t "(" then TOpen
  else if String.eqb t "+" then TPlus
  else if String.eqb t "-" then TMinus
  else if String.eqb t "*" then TTimes
  else TNum (default 0 (int t)).

Lemma is_optok_cases (t : string) :
  is_optok t = true -> t = ")" \/ t = "(" \/ t = "+" \/ t = "-" \/ t = "*".
Proof.
  unfold is_optok. intros H.
  repeat (apply orb_prop in H; destruct H as [H | H]);
    apply String.eqb_eq in H; tauto.
Qed.

Lemma lex_go_optok (t rest : string) (acc : option Z) :
  is_optok t = true ->
  lex_go (t ++ rest) acc = flush acc ++ tok_of_string t :: lex_go rest None.
Proof.
  intros H. destruct (is_optok_cases t H) as [-> | [-> | [-> | [-> | ->]]]];
    reflexivity.
Qed.

(** ** Well-formed token lists

    The lists below are in reading order, that is the reversal of the
    program's stacks.  [tok_ok]: a token is an operator or parenthesis, or
    the numeral of a usable prime.  [wfr]: all tokens are such, and every
    numeral is followed by an operator or parenthesis (or ends the list),
    so that the numerals stay apart when the tokens are joined. *)

Definition tok_ok (prime : Z) (t : string) : Prop :=
  is_optok t = true \/ exists z, In z (usable prime) /\ t = str z.

Definition opens (r : list string) : Prop :=
  match r with
  | [] => True
  | y :: _ => is_optok y = true
  end.

Fixpoint wfr (prime : Z) (r : list string) : Prop :=
  match r with
  | [] => True
  | x :: r' => tok_ok prime x /\ (is_optok x = false -> opens r') /\ wfr prime r'
  end.

Lemma wfr_cons_op (prime : Z) (x : string) (r : list string) :
  is_optok x = true -> wfr prime r -> wfr prime (x :: r).
Proof.
  intros Hx Hr. cbn [wfr]. split; [left; exact Hx|]. split; [congruence | exact Hr].
Qed.

Lemma wfr_cons_num (prime z : Z) (r : list string) :
  In z (usable prime) -> opens r -> wfr prime r -> wfr prime (str z :: r).
Proof.
  intros Hz Ho Hr. cbn [wfr]. split; [right; exists z; tauto|]. tauto.
Qed.

Lemma wfr_app (prime : Z) (a b : list string) :
  wfr prime a -> wfr prime b -> opens b -> wfr prime (a ++ b).
Proof.
  intros Ha Hb Ho. induction a as [|x a IH]; [exact Hb|].
  cbn [wfr app] in *. destruct Ha as (Hx & Hn & Ha). split; [exact Hx|].
  split; [|apply IH; exact Ha].
  intros Hf. specialize (Hn Hf). destruct a as [|y a]; [exact Ho | exact Hn].
Qed.

Lemma wfr_replicate (prime : Z) (d : nat) (r : list string) :
  wfr prime r -> wfr prime (replicate d "(" ++ r).
Proof.
  intros Hr. induction d as [|d IH]; [exact Hr|].
  cbn [replicate app]. apply wfr_cons_op; [reflexivity | exact IH].
Qed.

Lemma opens_replicate (d : nat) (r : list string) : opens r -> opens (replicate d "(" ++ r).
Proof. intros H. destruct d; [exact H | reflexivity]. Qed.

Lemma usable_pos (prime z : Z) : In z (usable prime) -> 0 <= z.
Proof. intros H. apply usable_le_max in H. lia. Qed.

(** Joining a well-formed list and lexing the string gives the tokens
    back, one for one. *)
Lemma lex_join (prime : Z) (r : list string) :
  wfr prime r -> lex (join r) = map tok_of_string r.
Proof.
  unfold lex. induction r as [|x r IH]; [reflexivity|].
  intros (Hx & Hn & Hr). cbn [join fold_right map]. fold (join r).
  destruct Hx as [Hop | (z & Hz & ->)].
  - rewrite lex_go_optok by exact Hop. cbn [flush app]. rewrite IH by exact Hr. reflexivity.
  - pose proof (usable_pos prime z Hz) as Hz0.
    rewrite lex_go_str by exact Hz0.
    assert (Htok : tok_of_string (str z) = TNum z).
    { pose proof (str_not_optok z Hz0) as Hno. unfold is_optok in Hno.
      repeat (apply orb_false_elim in Hno; destruct Hno as [Hno ?]).
      unfold tok_of_string.
      repeat match goal with H : String.eqb _ _ = false |- _ => rewrite H; clear H end.
      rewrite int_str. reflexivity. }
    rewrite Htok. specialize (Hn (str_not_optok z Hz0)).
    destruct r as [|y r]; [reflexivity|].
    cbn [opens] in Hn. cbn [join fold_right] in *. fold (join r) in *.
    rewrite lex_go_optok by exact Hn. rewrite lex_go_optok in IH by exact Hn.
    cbn [flush app] in *. rewrite <- IH by exact Hr. reflexivity.
Qed.

Lemma tok_of_string_op (t : string) (z : Z) : is_optok t = true -> tok_of_string t <> TNum z.
Proof.
  intros H. destruct (is_optok_cases t H) as [-> | [-> | [-> | [-> | ->]]]]; discriminate.
Qed.

Lemma tok_of_string_str (z : Z) : 0 <= z -> tok_of_string (str z) = TNum z.
Proof.
  intros Hz0. pose proof (str_not_optok z Hz0) as Hno. unfold is_optok in Hno.
  repeat (apply orb_false_elim in Hno; destruct Hno as [Hno ?]).
  unfold tok_of_string.
  repeat match goal with H : String.eqb _ _ = false |- _ => rewrite H; clear H end.
  rewrite int_str. reflexivity.
Qed.

Fixpoint numbers (ts : list token) : list Z :=
  match ts with
  | [] => []
  | TNum n :: ts' => n :: numbers ts'
  | _ :: ts' => numbers ts'
  end.

Lemma literals_eq (s : string) : literals s = numbers (lex s).
Proof.
  unfold literals. generalize (lex s) as ts. intros ts.
  induction ts as [|t ts IH]; [reflexivity|].
  destruct t; cbn [omap list_omap numbers]; rewrite <- ?IH; reflexivity.
Qed.

Lemma numbers_tokens (prime : Z) (r : list string) :
  Forall (tok_ok prime) r ->
  forall l, In l (numbers (map tok_of_string r)) -> In l (usable prime).
Proof.
  induction 1 as [|x r Hx _ IH]; intros l; [intros []|].
  rewrite map_cons.
  destruct Hx as [Hop | (z & Hz & ->)].
  - destruct (is_optok_cases x Hop) as [-> | [-> | [-> | [-> | ->]]]];
      change (In l (numbers (map tok_of_string r)) -> In l (usable prime)); apply IH.
  - rewrite tok_of_string_str by (apply (usable_pos prime); exact Hz).
    cbn [numbers]. intros [<- | Hl]; [exact Hz | apply IH; exact Hl].
Qed.

Lemma wfr_Forall (prime : Z) (r : list string) : wfr prime r -> Forall (tok_ok prime) r.
Proof.
  induction r as [|x r IH]; [constructor|]. intros (Hx & _ & Hr).
  constructor; [exact Hx | apply IH; exact Hr].
Qed.

(** The literals of the joined string are usable primes. *)
Lemma literals_join (prime : Z) (r : list string) :
  wfr prime r -> forall l, In l (literals (join r)) -> In l (usable prime).
Proof.
  intros Hr l. rewrite literals_eq, (lex_join prime r Hr).
  apply numbers_tokens, wfr_Forall, Hr.
Qed.

(** *** The characters of the output *)

Definition allowed_char (c : ascii) : bool :=
  match digit_of c with
  | Some _ => true
  | None => Ascii.eqb c "+" || Ascii.eqb c "-" || Ascii.eqb c "*"
            || Ascii.eqb c "(" || Ascii.eqb c ")"
  end.

Fixpoint allowed (s : string) : bool :=
  match s with
  | EmptyString => true
  | String c s' => allowed_char c && allowed s'
  end.

Lemma allowed_app (a b : string) : allowed (a ++ b) = allowed a && allowed b.
Proof.
  induction a as [|c a IH]; [reflexivity|].
  change (String c a ++ b)%string with (String c (a ++ b)%string).
  cbn [allowed]. rewrite IH. apply andb_assoc.
Qed.

Lemma allowed_uint (u : Decimal.uint) : allowed (NilEmpty.string_of_uint u) = true.
Proof. induction u; cbn [NilEmpty.string_of_uint allowed]; try reflexivity; exact IHu. Qed.

Lemma allowed_str (z : Z) : allowed (str z) = true.
Proof.
  unfold str. destruct (Z.to_int z) as [u | u]; cbn [NilZero.string_of_int].
  - destruct u; try reflexivity; apply allowed_uint.
  - cbn [allowed]. destruct u; try reflexivity; apply allowed_uint.
Qed.

Lemma join_cons (x : string) (r : list string) : join (x :: r) = (x ++ join r)%string.
Proof. reflexivity. Qed.

Lemma allowed_join (prime : Z) (r : list string) :
  Forall (tok_ok prime) r -> allowed (join r) = true.
Proof.
  induction 1 as [|x r Hx _ IH]; [reflexivity|].
  rewrite join_cons, allowed_app, IH, andb_true_r.
  destruct Hx as [Hop | (z & _ & ->)]; [|apply allowed_str].
  destruct (is_optok_cases x Hop) as [-> | [-> | [-> | [-> | ->]]]]; reflexivity.
Qed.

Lemma rev_replicate {A : Type} (d : nat) (x : A) : rev (replicate d x) = replicate d x.
Proof.
  induction d as [|d IH]; [reflexivity|].
  cbn [replicate rev]. rewrite IH. symmetry. apply replicate_cons_app.
Qed.

Lemma bind_Ok {A B : Type} (m : res A) (k : A -> res B) (b : B) :
  m ≫= k = Ok b -> exists a, m = Ok a /\ k a = Ok b.
Proof.
  unfold mbind, res_bind. destruct m as [a| |]; try discriminate. eauto.
Qed.

(** ** heapq keeps the elements *)

Lemma insert_head_swap {A : Type} (l : list A) (j : nat) (x a : A) :
  (j < length l)%nat -> x :: <[j := a]> l ≡ₚ a :: <[j := x]> l.
Proof.
  revert j. induction l as [|b l IH]; intros j Hj; cbn [length] in Hj; [lia|].
  destruct j as [|j]; cbn [insert list_insert].
  - apply perm_swap.
  - rewrite (perm_swap b x). rewrite (IH j) by lia. apply perm_swap.
Qed.

Lemma insert_swap {A : Type} (l : list A) (i j : nat) (x a : A) :
  i <> j -> l !! i = Some a -> (j < length l)%nat ->
  <[i := x]> (<[j := a]> l) ≡ₚ <[j := x]> l.
Proof.
  revert i j. induction l as [|b l IH]; intros i j Hij Hi Hj; [discriminate Hi|].
  destruct i as [|i], j as [|j]; try congruence; cbn [insert list_insert lookup list_lookup] in *.
  - injection Hi as ->. cbn [length] in Hj. apply insert_head_swap. lia.
  - rewrite <- (list_insert_id l i a Hi) at 2.
    symmetry. apply insert_head_swap. apply lookup_lt_Some in Hi. exact Hi.
  - cbn [length] in Hj. rewrite (IH i j); [reflexivity | congruence | exact Hi | lia].
Qed.

Section HeapqFacts.
Context {A : Type} (lt : A -> A -> bool).

Lemma siftdown_loop_perm (fuel : nat) :
  forall (heap : list A) (startpos pos : nat) (newitem : A),
    (pos < length heap)%nat ->
    siftdown_loop lt fuel heap startpos pos newitem ≡ₚ <[pos := newitem]> heap.
Proof.
  induction fuel as [|fuel IH]; intros heap startpos pos newitem Hpos;
    cbn [siftdown_loop]; [reflexivity|].
  destruct (startpos <? pos)%nat eqn:Hlt; [|reflexivity].
  assert (Hpar : (Nat.div2 (pos - 1) < pos)%nat).
  { apply Nat.ltb_lt in Hlt. pose proof (Nat.div2_decr (pos - 1) (pos - 1)). lia. }
  destruct (heap !! Nat.div2 (pos - 1)) as [parent|] eqn:Hp; [|reflexivity].
  destruct (lt newitem parent); [|reflexivity].
  rewrite IH by (rewrite length_insert; lia).
  apply insert_swap; [lia | exact Hp | exact Hpos].
Qed.

Lemma siftdown_perm (heap : list A) (startpos pos : nat) :
  siftdown lt heap startpos pos ≡ₚ heap.
Proof.
  unfold siftdown. destruct (heap !! pos) as [newitem|] eqn:Hp; [|reflexivity].
  rewrite siftdown_loop_perm by (apply lookup_lt_Some in Hp; exact Hp).
  rewrite list_insert_id by exact Hp. reflexivity.
Qed.

Lemma siftup_loop_perm (fuel : nat) :
  forall (heap heap' : list A) (endpos pos pos' : nat) (x : A),
    (pos < length heap)%nat ->
    siftup_loop lt fuel heap endpos pos = (heap', pos') ->
    (pos' < length heap')%nat /\ <[pos' := x]> heap' ≡ₚ <[pos := x]> heap.
Proof.
  induction fuel as [|fuel IH]; intros heap heap' endpos pos pos' x Hpos H;
    cbn [siftup_loop] in H.
  - injection H as <- <-. split; [exact Hpos | reflexivity].
  - destruct (2 * pos + 1 <? endpos)%nat; [|injection H as <- <-; split; [exact Hpos | reflexivity]].
    set (cp := match heap !! (2 * pos + 1)%nat, heap !! (2 * pos + 1 + 1)%nat with
               | Some c, Some r =>
                   if (2 * pos + 1 + 1 <? endpos)%nat && negb (lt c r)
                   then (2 * pos + 1 + 1)%nat else (2 * pos + 1)%nat
               | _, _ => (2 * pos + 1)%nat
               end) in H.
    assert (Hcp : (pos < cp)%nat).
    { unfold cp. destruct (heap !! (2 * pos + 1)%nat); [|lia].
      destruct (heap !! (2 * pos + 1 + 1)%nat); [|lia].
      destruct ((2 * pos + 1 + 1 <? endpos)%nat && negb (lt a a0)); lia. }
    destruct (heap !! cp) as [c|] eqn:Hc;
      [|injection H as <- <-; split; [exact Hpos | reflexivity]].
    apply (IH _ _ _ _ _ x) in H.
    + destruct H as [Hlen Hperm]. split; [exact Hlen|].
      rewrite Hperm. apply insert_swap; [lia | exact Hc | exact Hpos].
    + rewrite length_insert. apply lookup_lt_Some in Hc. exact Hc.
Qed.

Lemma siftup_perm (heap : list A) (pos : nat) : siftup lt heap pos ≡ₚ heap.
Proof.
  unfold siftup. destruct (heap !! pos) as [newitem|] eqn:Hp; [|reflexivity].
  destruct (siftup_loop lt (length heap) heap (length heap) pos) as [heap' pos'] eqn:Hl.
  apply (siftup_loop_perm _ _ _ _ _ _ newitem) in Hl;
    [|apply lookup_lt_Some in Hp; exact Hp].
  destruct Hl as [_ Hperm]. rewrite siftdown_perm, Hperm.
  rewrite list_insert_id by exact Hp. reflexivity.
Qed.

(** [heappush] adds the item and keeps all others. *)
Lemma heappush_perm (heap : list A) (item : A) : heappush lt heap item ≡ₚ item :: heap.
Proof.
  unfold heappush. rewrite siftdown_perm. symmetry. apply Permutation_cons_append.
Qed.

(** [heappop] removes the item it returns and keeps all others; it fails
    on the empty heap only. *)
Lemma heappop_perm (heap heap' : list A) (x : A) :
  heappop lt heap = Some (x, heap') -> heap ≡ₚ x :: heap'.
Proof.
  unfold heappop. destruct (last heap) as [lastelt|] eqn:Hl; [|discriminate].
  destruct heap as [|a heap] using rev_ind; [discriminate|]. clear IHheap.
  rewrite last_snoc in Hl. injection Hl as ->. rewrite removelast_last.
  destruct heap as [|r t].
  - intros H. injection H as <- <-. reflexivity.
  - intros H. injection H as <- <-. rewrite siftup_perm.
    cbn [insert list_insert app]. apply perm_skip. symmetry. apply Permutation_cons_append.
Qed.

Lemma heappop_None (heap : list A) : heappop lt heap = None -> heap = [].
Proof.
  unfold heappop. destruct heap as [|a heap] using rev_ind; [reflexivity|].
  rewrite last_snoc, removelast_last. destruct heap; discriminate.
Qed.

Lemma heappush_Forall (P : A -> Prop) (heap : list A) (item : A) :
  P item -> Forall P heap -> Forall P (heappush lt heap item).
Proof.
  intros Hi Hh. rewrite heappush_perm. constructor; assumption.
Qed.

Lemma heappop_Forall (P : A -> Prop) (heap heap' : list A) (x : A) :
  heappop lt heap = Some (x, heap') -> Forall P heap -> P x /\ Forall P heap'.
Proof.
  intros H Hh. apply heappop_perm in H. rewrite H in Hh.
  apply Forall_cons in Hh. exact Hh.
Qed.
End HeapqFacts.

(** ** What the program puts on its stacks *)

Lemma pop_snoc2 {A : Type} (l : list A) (a b : A) : pop (l ++ [a; b]) = Ok (l ++ [a], b).
Proof.
  replace (l ++ [a; b]) with ((l ++ [a]) ++ [b]) by (rewrite <- app_assoc; reflexivity).
  apply pop_snoc.
Qed.

Lemma py_index_In {A : Type} (l : list A) (i : Z) (a : A) : py_index l i = Some a -> In a l.
Proof.
  unfold py_index. intros H.
  destruct ((0 <=? i) && (i <? Z.of_nat (length l)));
    [|destruct ((- Z.of_nat (length l) <=? i) && (i <? 0)); [|discriminate]];
    apply list_elem_of_lookup_2 in H; apply list_elem_of_In; exact H.
Qed.

Lemma py_index_PRIMES_range (i a : Z) : py_index PRIMES i = Some a -> -26 <= i < 26.
Proof.
  unfold py_index. change (Z.of_nat (length PRIMES)) with 26. intros H.
  destruct (Z.leb_spec 0 i); destruct (Z.ltb_spec i 26); cbn [andb] in H; try lia;
    destruct (Z.leb_spec (- (26)) i); destruct (Z.ltb_spec i 0); cbn [andb] in H;
    try lia; discriminate H.
Qed.

(** Neighbouring positions of [PRIMES] hold different numbers. *)
Lemma py_index_PRIMES_pred (i a b : Z) :
  py_index PRIMES i = Some a -> py_index PRIMES (i - 1) = Some b -> a <> b.
Proof.
  intros Ha Hb. pose proof (py_index_PRIMES_range i a Ha) as Hi.
  assert (Hall : forallb (fun k => match py_index PRIMES (k - 26), py_index PRIMES (k - 26 - 1) with
                                   | Some x, Some y => negb (x =? y)
                                   | _, _ => true
                                   end) (range 52) = true) by (vm_compute; reflexivity).
  rewrite forallb_forall in Hall. specialize (Hall (i + 26)).
  replace (i + 26 - 26) with i in Hall by lia. rewrite Ha, Hb in Hall.
  assert (Hin : In (i + 26) (range 52)) by (apply in_range; lia).
  specialize (Hall Hin). apply negb_true_iff, Z.eqb_neq in Hall. exact Hall.
Qed.

Ltac wf :=
  repeat first
    [ exact I
    | assumption
    | apply wfr_replicate
    | apply wfr_cons_op; [reflexivity|]
    | apply wfr_cons_num; [assumption | first [exact I | reflexivity] | ] ].

Ltac wfa :=
  repeat first
    [ progress wf
    | apply wfr_app; [assumption | | reflexivity] ].

Ltac norm_rev :=
  repeat (progress (rewrite ?rev_app_distr; cbn [rev app];
                    rewrite ?rev_replicate, <- ?app_assoc; cbn [app])).

Section Stacks.
Variable prime : Z.

Lemma decompose2_scan_wfr (n : Z) (xs : list Z) :
  (forall x, In x xs -> In x (usable prime)) ->
  wfr prime (rev (decompose2_scan n (usable prime) xs)).
Proof.
  induction xs as [|p xs IH]; intros Hxs; cbn [decompose2_scan]; [exact I|].
  assert (Hp : In p (usable prime)) by (apply Hxs; left; reflexivity).
  assert (Hxs' : forall x, In x xs -> In x (usable prime))
    by (intros x Hx; apply Hxs; right; exact Hx).
  destruct (p <? n); cbv zeta.
  - destruct (in_set (n - p) (usable prime)) eqn:Hq; [|apply IH; exact Hxs'].
    apply in_set_true in Hq. cbn [rev app]. wf.
  - destruct (in_set (p - n) (usable prime)) eqn:Hq; [|apply IH; exact Hxs'].
    apply in_set_true in Hq. cbn [rev app]. wf.
Qed.

Lemma decompose2_wfr (n : Z) : wfr prime (rev (decompose2 n (usable prime))).
Proof.
  unfold decompose2. destruct (default (0, 0) (CROSS_PRODUCTS !! n)) as [p q].
  destruct (in_set p (usable prime)) eqn:Hp; cbn [andb];
    [|apply decompose2_scan_wfr; auto].
  destruct (in_set q (usable prime)) eqn:Hq; [|apply decompose2_scan_wfr; auto].
  apply in_set_true in Hp, Hq. cbn [rev app]. wf.
Qed.

Lemma decompose3_scan_wfr (n : Z) (xs : list Z) :
  wfr prime (rev (decompose3_scan n (usable prime) xs)).
Proof.
  induction xs as [|x xs IH]; cbn [decompose3_scan]; [exact I|].
  destruct (x <? n); cbv zeta.
  - destruct (in_set (n - x) (usable prime)) eqn:Hq; [|exact IH].
    apply in_set_true in Hq. rewrite rev_app_distr. cbn [rev app].
    apply wfr_app; [apply decompose2_wfr | wf | reflexivity].
  - destruct (in_set (x - n) (usable prime)) eqn:Hq; [|exact IH].
    apply in_set_true in Hq. rewrite rev_app_distr. cbn [rev app].
    apply wfr_app; [apply decompose2_wfr | wf | reflexivity].
Qed.

Lemma decompose_wfr (n : Z) (u : list Z) (e : list string) (c : Z) :
  decompose n (usable prime) u = (e, c) -> wfr prime (rev e).
Proof.
  unfold decompose. destruct (negb (in_set n u)); intros H;
    apply (f_equal fst) in H; cbn [fst] in H; subst e.
  - apply decompose2_wfr.
  - unfold decompose3. apply decompose3_scan_wfr.
Qed.

Lemma step_down_usable (fuel : nat) :
  forall (n index div index' div' : Z),
    In div (usable prime) ->
    step_down fuel PRIMES prime n index div = Ok (index', div') ->
    In div' (usable prime).
Proof.
  induction fuel as [|fuel IH]; intros n index div index' div' Hdiv H;
    cbn [step_down] in H; [discriminate|].
  destruct (n <? div); [|injection H as <- <-; exact Hdiv].
  apply bind_Ok in H. destruct H as (pi & Hpi & H).
  apply bind_Ok in H. destruct H as (d2 & Hd2 & H).
  apply IH in H; [exact H|].
  unfold of_option in Hpi, Hd2.
  destruct (py_index PRIMES (index - 1)) as [x|] eqn:Hx; [|discriminate].
  injection Hpi as ->.
  destruct (Z.eqb_spec pi prime) as [-> | Hne].
  - destruct (py_index PRIMES (index - 1 - 1)) as [y|] eqn:Hy; [|discriminate].
    injection Hd2 as ->. apply usable_spec. split; [eapply py_index_In; exact Hy|].
    intros ->. exact (py_index_PRIMES_pred _ _ _ Hx Hy eq_refl).
  - rewrite Hx in Hd2. injection Hd2 as <-. apply usable_spec.
    split; [eapply py_index_In; exact Hx | exact Hne].
Qed.

(** The stack of the greedy solution, whatever it answers. *)
Lemma find_random_solution_loop_wfr (fuel : nat) (u : list Z) :
  forall (index div count : Z) (depth : nat) (pre : list string) (tok : string)
         (e : list string) (c : Z),
    In div (usable prime) -> wfr prime (rev pre) -> opens (rev pre) ->
    find_random_solution_loop fuel PRIMES prime (usable prime) u
      index div count depth (pre ++ [tok]) = Ok (e, c) ->
    wfr prime (rev e).
Proof.
  induction fuel as [|fuel IH]; intros index div count depth pre tok e c Hdiv Hpre Hopen H;
    cbn [find_random_solution_loop] in H; [discriminate|].
  rewrite pop_snoc in H.
  apply bind_Ok in H. destruct H as ([pre0 tok0] & Hpop & H). injection Hpop as <- <-.
  apply bind_Ok in H. destruct H as (m & _ & H).
  apply bind_Ok in H. destruct H as ([index' div'] & Hsd & H).
  apply step_down_usable in Hsd; [|exact Hdiv]. cbv zeta in H.
  pose proof (decompose2_wfr (m mod div')) as Hd2.
  set (d2 := decompose2 (m mod div') (usable prime)) in *. clearbody d2.
  (destruct (m mod div' =? 0);
   [|destruct (in_set (m mod div') (usable prime)) eqn:Hr; [apply in_set_true in Hr|]]);
    cbn [negb] in H;
    (destruct (m / div' =? 1);
     [|destruct (in_set (m / div') (usable prime)) eqn:Hq; [apply in_set_true in Hq|]]);
    cbn [negb orb] in H;
    try (injection H as <- <-; norm_rev; wfa; fail);
    (destruct (m / div' <? MIN_NON_DECOMPOSABLE);
     [ rewrite pop_snoc2 in H; apply bind_Ok in H;
       destruct H as ([x1 x2] & Hx & H); injection Hx as <- <-;
       destruct (decompose (m / div') (usable prime) u) as [expr extra] eqn:Hd;
       apply decompose_wfr in Hd; injection H as <- <-; norm_rev; wfa
     | match type of H with
       | find_random_solution_loop _ _ _ _ _ _ _ _ _ (?X ++ [?a; ?b]) = _ =>
           replace (X ++ [a; b]) with ((X ++ [a]) ++ [b]) in H
             by (rewrite <- app_assoc; reflexivity);
           apply IH in H; [exact H | exact Hsd | norm_rev; wfa | norm_rev; reflexivity]
       end ]).
Qed.

Lemma find_random_solution_wfr (fuel : nat) (n index : Z) (u : list Z)
    (e : list string) (c : Z) :
  find_random_solution fuel n PRIMES prime index (usable prime) u = Ok (e, c) ->
  wfr prime (rev e).
Proof.
  unfold find_random_solution. intros H.
  apply bind_Ok in H. destruct H as (pi & Hpi & H).
  apply bind_Ok in H. destruct H as (div & Hdiv & H).
  unfold of_option in Hpi, Hdiv.
  destruct (py_index PRIMES index) as [x|] eqn:Hx; [|discriminate]. injection Hpi as ->.
  assert (Hin : In div (usable prime)).
  { destruct (Z.eqb_spec pi prime) as [-> | Hne]; cbn [negb] in Hdiv.
    - destruct (py_index PRIMES (index - 1)) as [y|] eqn:Hy; [|discriminate].
      injection Hdiv as ->. apply usable_spec. split; [eapply py_index_In; exact Hy|].
      intros ->. exact (py_index_PRIMES_pred _ _ _ Hx Hy eq_refl).
    - injection Hdiv as <-. apply usable_spec.
      split; [eapply py_index_In; exact Hx | exact Hne]. }
  change [str n] with ([] ++ [str n]) in H.
  eapply find_random_solution_loop_wfr in H; [exact H | exact Hin | exact I | exact I].
Qed.

(** A queued node holds a well-formed prefix and one pending number. *)
Definition good_node (nd : Node) : Prop :=
  exists pre c, expression nd = pre ++ [str c] /\ wfr prime (rev pre) /\ opens (rev pre).

Definition good_state (st : State) : Prop :=
  Forall good_node (queue st) /\ wfr prime (rev (expression_result st)).

Lemma good_set_result (st : State) (e : list string) (c : Z) :
  good_state st -> wfr prime (rev e) -> good_state (set_result st e c).
Proof. intros [Hq _] He. split; [exact Hq | exact He]. Qed.

Lemma good_improve (st : State) (e : list string) (c : Z) (b : bool) :
  good_state st -> wfr prime (rev e) -> good_state (if b then set_result st e c else st).
Proof. destruct b; [apply good_set_result | tauto]. Qed.

Lemma candidate_good (fuel : nat) (u : list Z) (pre : list string) (depth : nat)
    (p current : Z) (st st' : State) (c : Z * Z * Z) :
  In p (usable prime) -> wfr prime (rev pre) -> opens (rev pre) -> good_state st ->
  candidate fuel PRIMES prime (usable prime) u pre depth p current st c = Ok st' ->
  good_state st'.
Proof.
  intros Hp Hpre Hopen Hst H. destruct c as [[new_count quot] rem].
  unfold candidate in H. cbv zeta in H.
  destruct (decompose rem (usable prime) u) as [expr0 extra0] eqn:Hd0.
  apply decompose_wfr in Hd0.
  destruct (p * quot + rem =? current);
    (destruct (rem =? 0);
     [|destruct (in_set rem (usable prime)) eqn:Hr; [apply in_set_true in Hr|]]);
    cbn [negb] in H;
    (destruct (quot =? 1);
     [|destruct (in_set quot (usable prime)) eqn:Hq; [apply in_set_true in Hq|]]);
    cbn [negb orb] in H;
    (destruct (pruned _ st); [injection H as <-; exact Hst|]);
    try (injection H as <-; apply good_improve; [exact Hst|]; norm_rev; wfa; fail);
    (destruct (quot <? MIN_NON_DECOMPOSABLE);
     [ rewrite pop_snoc2 in H; apply bind_Ok in H;
       destruct H as ([x1 x2] & Hx & H); injection Hx as <- <-;
       destruct (decompose quot (usable prime) u) as [expr extra] eqn:Hd;
       apply decompose_wfr in Hd; injection H as <-;
       apply good_improve; [exact Hst|]; norm_rev; wfa
     | apply bind_Ok in H; destruct H as (est & _ & H);
       (destruct (pruned _ st); [injection H as <-; exact Hst|]);
       apply bind_Ok in H; destruct H as (st1 & Hst1 & H); injection H as <-;
       assert (H1 : good_state st1);
       [ match type of Hst1 with
         | (if ?b then _ else _) = _ => destruct b; [|injection Hst1 as <-; exact Hst]
         end;
         apply bind_Ok in Hst1; destruct Hst1 as ([expr mc] & Hfrs & Hst1);
         apply find_random_solution_wfr in Hfrs;
         match type of Hst1 with
         | (if ?b then _ else _) = _ => destruct b; [|injection Hst1 as <-; exact Hst]
         end;
         rewrite pop_snoc2 in Hst1; apply bind_Ok in Hst1;
         destruct Hst1 as ([x1 x2] & Hx & Hst1); injection Hx as <- <-;
         injection Hst1 as <-; apply good_set_result; [exact Hst|]; norm_rev; wfa
       | destruct H1 as [Hq1 Hr1]; split; [|exact Hr1];
         apply heappush_Forall; [|exact Hq1];
         match goal with
         | |- good_node (mkNode (?X ++ [?a; _]) _ _ _) => exists (X ++ [a]), quot
         end;
         cbn [expression]; split;
         [ exact (app_assoc _ [_] [_])
         | split; [norm_rev; wfa | norm_rev; reflexivity] ] ] ]).
Qed.

Lemma while_remainders_good (fuel : nat) (u : list Z) (pre : list string) (depth : nat)
    (p current : Z) :
  In p (usable prime) -> wfr prime (rev pre) -> opens (rev pre) ->
  forall (fuel' : nat) (remainders : list (Z * Z * Z)) (st st' : State),
    good_state st ->
    while_remainders fuel PRIMES prime (usable prime) u fuel' pre depth p current
      remainders st = Ok st' ->
    good_state st'.
Proof.
  intros Hp Hpre Hopen. induction fuel' as [|f IH]; intros remainders st st' Hst H;
    cbn [while_remainders] in H; [discriminate|].
  destruct (heappop triple_lt remainders) as [[c rs]|]; [|injection H as <-; exact Hst].
  apply bind_Ok in H. destruct H as (st1 & Hc & H).
  eapply IH; [|exact H]. eapply candidate_good; eauto.
Qed.

Lemma for_primes_good (fuel : nat) (u : list Z) (pre : list string) (depth : nat)
    (count current : Z) :
  wfr prime (rev pre) -> opens (rev pre) ->
  forall (ps : list Z) (st st' : State),
    (forall p, In p ps -> In p PRIMES) -> good_state st ->
    for_primes fuel PRIMES prime (usable prime) u ps pre depth count current st = Ok st' ->
    good_state st'.
Proof.
  intros Hpre Hopen. induction ps as [|p ps IH]; intros st st' Hps Hst H;
    cbn [for_primes] in H; [injection H as <-; exact Hst|].
  assert (Hps' : forall x, In x ps -> In x PRIMES)
    by (intros x Hx; apply Hps; right; exact Hx).
  destruct (Z.eqb_spec p prime) as [-> | Hne]; cbn [orb] in H; [eapply IH; eauto|].
  destruct (p =? 1); [eapply IH; eauto|].
  destruct (p >? current); [eapply IH; eauto|].
  cbv zeta in H. apply bind_Ok in H. destruct H as ([rems seen'] & _ & H).
  apply bind_Ok in H. destruct H as (st1 & Hw & H).
  eapply IH; [exact Hps' | | exact H].
  eapply while_remainders_good; [ | exact Hpre | exact Hopen | | exact Hw].
  - apply usable_spec. split; [apply Hps; left; reflexivity | exact Hne].
  - exact Hst.
Qed.

Lemma search_loop_good (fuel : nat) (u : list Z) :
  forall (fuel' : nat) (st st' : State),
    good_state st ->
    search_loop fuel PRIMES prime (usable prime) u fuel' st = Ok st' ->
    good_state st'.
Proof.
  induction fuel' as [|f IH]; intros st st' Hst H; cbn [search_loop] in H; [discriminate|].
  destruct (heappop Node_lt (queue st)) as [[node q']|] eqn:Hpop;
    [|injection H as <-; exact Hst].
  destruct Hst as [Hq Hres].
  eapply heappop_Forall in Hpop; [|exact Hq]. destruct Hpop as [Hnode Hq'].
  cbv zeta in H.
  assert (Hst1 : good_state (set_queue st q')) by (split; [exact Hq' | exact Hres]).
  destruct (pruned _ _); [eapply IH; eauto|].
  destruct Hnode as (pre & c & He & Hpre & Hopen). rewrite He, pop_snoc in H.
  apply bind_Ok in H. destruct H as ([e t] & Hx & H). injection Hx as <- <-.
  apply bind_Ok in H. destruct H as (cur & _ & H).
  match type of H with
  | (if ?b then _ else _) = _ => destruct b; [eapply IH; eauto|]
  end.
  apply bind_Ok in H. destruct H as (st2 & Hf & H).
  eapply IH; [|exact H].
  eapply for_primes_good; [exact Hpre | exact Hopen | | exact Hst1 | exact Hf].
  intros x Hx. exact Hx.
Qed.
End Stacks.

Lemma append_nil_r (s : string) : (s ++ "")%string = s.
Proof.
  induction s as [|a s IH]; [reflexivity|].
  change (String a s ++ "")%string with (String a (s ++ "")%string).
  rewrite IH. reflexivity.
Qed.

(** Whatever [find_expression] returns is the concatenation of a
    well-formed token list over the usable primes. *)
Lemma find_expression_tokens (fuel : nat) (n prime : Z) (s : string) (c : Z) :
  find_expression fuel n PRIMES prime = Ok (s, c) ->
  exists r, wfr prime r /\ s = join r.
Proof.
  unfold find_expression. intros H. destruct (n =? 0).
  - change (py_index PRIMES 0) with (Some 1) in H.
    change (py_index PRIMES 1) with (Some 2) in H.
    unfold of_option in H.
    apply bind_Ok in H. destruct H as (p0 & Hp0 & H). injection Hp0 as <-.
    apply bind_Ok in H. destruct H as (p & Hp & H). injection H as <- <-.
    exists [str p; "-"; str p]. split.
    + assert (Hin : In p (usable prime)).
      { apply usable_spec. destruct (Z.eqb_spec 1 prime) as [<- | Hne]; cbn [negb] in Hp;
          injection Hp as <-; split; try lia; vm_compute; tauto. }
      wf.
    + unfold join. cbn [fold_right]. rewrite append_nil_r. reflexivity.
  - cbv zeta in H. destruct (in_set n (usable prime)) eqn:Hn.
    + injection H as <- <-. apply in_set_true in Hn. exists [str n]. split; [wf|].
      unfold join. cbn [fold_right]. rewrite append_nil_r. reflexivity.
    + apply bind_Ok in H. destruct H as (u & _ & H).
      destruct (n <? MIN_NON_DECOMPOSABLE).
      * destruct (decompose n (usable prime) u) as [e k] eqn:Hd. injection H as <- <-.
        exists (rev e). split; [eapply decompose_wfr; exact Hd | reflexivity].
      * apply bind_Ok in H. destruct H as (st & Hs & H). injection H as <- <-.
        exists (rev (expression_result st)). split; [|reflexivity].
        eapply search_loop_good in Hs; [exact (proj2 Hs)|].
        split; [|exact I]. constructor; [|constructor].
        exists [], n. split; [reflexivity|]. split; exact I.
Qed.

(** ** The excluded prime and the characters of the output *)

(** C3: no literal of a returned expression is the excluded prime; every
    literal is a usable prime, an element of [PRIMES] other than the
    excluded one.  This holds for every target, negative ones included. *)
Theorem excluded_prime_never_literal (fuel : nat) (n prime : Z) (s : string) (c : Z) :
  find_expression fuel n PRIMES prime = Ok (s, c) ->
  forall l, In l (literals s) -> In l PRIMES /\ l <> prime.
Proof.
  intros H l Hl. apply find_expression_tokens in H. destruct H as (r & Hr & ->).
  exact (proj1 (usable_spec prime l) (literals_join prime r Hr l Hl)).
Qed.

Lemma excluded_prime_never_literal_witness :
  find_expression 5000 1000 PRIMES 2 = Ok ("(97*11-67)", 3) /\
  forall l, In l (literals "(97*11-67)") -> In l PRIMES /\ l <> 2.
Proof.
  assert (H : find_expression 5000 1000 PRIMES 2 = Ok ("(97*11-67)", 3))
    by (vm_compute; reflexivity).
  split; [exact H|].
  exact (excluded_prime_never_literal 5000 1000 2 "(97*11-67)" 3 H).
Defined.

Lemma allowed_no_slash (s : string) :
  allowed s = true -> ~ In "/"%char (list_ascii_of_string s).
Proof.
  induction s as [|a s IH]; cbn [allowed list_ascii_of_string In]; [tauto|].
  intros H. apply andb_prop in H. destruct H as [Ha Hs].
  intros [-> | Hin]; [discriminate Ha | exact (IH Hs Hin)].
Qed.

(** C10: a returned expression consists of decimal digits, [+], [-], [*]
    and parentheses only; the division operator never occurs. *)
Theorem output_has_no_division (fuel : nat) (n prime : Z) (s : string) (c : Z) :
  find_expression fuel n PRIMES prime = Ok (s, c) ->
  allowed s = true /\ ~ In "/"%char (list_ascii_of_string s).
Proof.
  intros H. apply find_expression_tokens in H. destruct H as (r & Hr & ->).
  assert (Ha : allowed (join r) = true) by (eapply allowed_join, wfr_Forall, Hr).
  split; [exact Ha | apply allowed_no_slash, Ha].
Qed.

Lemma output_has_no_division_witness :
  find_expression 5000 1000 PRIMES 3 = Ok ("(97*11-67)", 3) /\
  allowed "(97*11-67)" = true /\ ~ In "/"%char (list_ascii_of_string "(97*11-67)").
Proof.
  assert (H : find_expression 5000 1000 PRIMES 3 = Ok ("(97*11-67)", 3))
    by (vm_compute; reflexivity).
  split; [exact H|].
  exact (output_has_no_division 5000 1000 3 "(97*11-67)" 3 H).
Defined.

(** ** Termination

    Every loop of the program is given enough fuel when the fuel exceeds
    a number that depends on the target only.  The remainder loops run
    while the remainder is at most 268; the greedy solution and the
    lower bound divide their argument; a node expanded by the search
    pushes at most [26 * 538] nodes whose pending number is smaller. *)

Lemma bind_Ok_l {A B : Type} (a : A) (k : A -> res B) : Ok a ≫= k = k a.
Proof. reflexivity. Qed.

Lemma queue_improve (st : State) (e : list string) (c : Z) (b : bool) :
  queue (if b then set_result st e c else st) = queue st.
Proof. destruct b; reflexivity. Qed.

Lemma bound_le (p r : Z) :
  p <= 97 ->
  Qle_bool (inject_Z r)
    (get_remainders_bound p (default 0 (py_index PRIMES (-1))) MIN_NON_DECOMPOSABLE) = true ->
  r <= 268.
Proof.
  intros Hp H. apply Qle_bool_iff in H. unfold get_remainders_bound in H.
  change (default 0 (py_index PRIMES (-1))) with 97 in H.
  change (default 0 (py_index PRIMES 0)) with 1 in H.
  unfold MIN_NON_DECOMPOSABLE in H. cbv zeta in H.
  unfold Qle, Qdiv, Qmult, Qinv, inject_Z in H. cbn in H. lia.
Qed.

(** The quotient of a recorded triple is below the expanded number. *)
Definition tri_ok (current : Z) (t : Z * Z * Z) : Prop :=
  let '(_, quot, _) := t in quot < current.

Lemma record_candidate_spec (current nc quot rem : Z) (rs rs1 : list (Z * Z * Z))
    (seen seen1 : gmap Z Z) :
  record_candidate nc quot rem rs seen = (rs1, seen1) ->
  quot < current -> Forall (tri_ok current) rs ->
  Forall (tri_ok current) rs1 /\ (length rs1 <= S (length rs))%nat.
Proof.
  unfold record_candidate. intros H Hq Hrs.
  assert (Hpush : Forall (tri_ok current) (heappush triple_lt rs (nc, quot, rem)) /\
                  (length (heappush triple_lt rs (nc, quot, rem)) <= S (length rs))%nat).
  { split; [apply heappush_Forall; [exact Hq | exact Hrs]|].
    rewrite (Permutation_length (heappush_perm triple_lt rs (nc, quot, rem))).
    cbn [length]. lia. }
  destruct (seen !! quot) as [c|]; [destruct (c >? nc)|];
    apply (f_equal fst) in H; cbn [fst] in H; subst rs1;
    first [exact Hpush | split; [exact Hrs | lia]].
Qed.

Section Remainders.
Context (p count current : Z) (bound : Q) (ps u : list Z).
Hypothesis Hp : 2 <= p.
Hypothesis Hcur : 269 <= current.
Hypothesis Hbound : forall r, Qle_bool (inject_Z r) bound = true -> r <= 268.

Lemma under_loop_total (fuel : nat) :
  forall (quot rem : Z) (rs : list (Z * Z * Z)) (seen : gmap Z Z),
    Z.max 0 (269 - rem) < Z.of_nat fuel -> 0 <= rem ->
    p * quot + rem = current ->
    Forall (tri_ok current) rs ->
    exists rs' seen',
      under_loop fuel p count bound ps u quot rem rs seen = Ok (rs', seen') /\
      Forall (tri_ok current) rs' /\
      Z.of_nat (length rs') <= Z.of_nat (length rs) + Z.max 0 (269 - rem).
Proof.
  induction fuel as [|fuel IH]; intros quot rem rs seen Hf Hrem Heq Hrs; [lia|].
  cbn [under_loop]. destruct (Qle_bool (inject_Z rem) bound) eqn:Hb.
  - apply Hbound in Hb. cbv zeta.
    destruct (record_candidate _ quot rem rs seen) as [rs1 seen1] eqn:Hrc.
    apply (record_candidate_spec current) in Hrc; [|nia|exact Hrs].
    destruct Hrc as [Hrs1 Hlen].
    destruct (IH (quot - 1) (rem + p) rs1 seen1) as (rs' & seen' & Hu & Hrs' & Hlen');
      [lia | lia | lia | exact Hrs1 |].
    exists rs', seen'. split; [exact Hu|]. split; [exact Hrs'|]. lia.
  - exists rs, seen. split; [reflexivity|]. split; [exact Hrs|]. lia.
Qed.

Lemma over_loop_total (fuel : nat) :
  forall (quot rem : Z) (rs : list (Z * Z * Z)) (seen : gmap Z Z),
    Z.max 0 (269 - rem) < Z.of_nat fuel -> 0 <= rem ->
    p * quot - rem = current ->
    Forall (tri_ok current) rs ->
    exists rs' seen',
      over_loop fuel p count bound ps u quot rem rs seen = Ok (rs', seen') /\
      Forall (tri_ok current) rs' /\
      Z.of_nat (length rs') <= Z.of_nat (length rs) + Z.max 0 (269 - rem).
Proof.
  induction fuel as [|fuel IH]; intros quot rem rs seen Hf Hrem Heq Hrs; [lia|].
  cbn [over_loop]. destruct (Qle_bool (inject_Z rem) bound) eqn:Hb.
  - apply Hbound in Hb. cbv zeta.
    destruct (record_candidate _ quot rem rs seen) as [rs1 seen1] eqn:Hrc.
    apply (record_candidate_spec current) in Hrc; [|nia|exact Hrs].
    destruct Hrc as [Hrs1 Hlen].
    destruct (IH (quot + 1) (rem + p) rs1 seen1) as (rs' & seen' & Hu & Hrs' & Hlen');
      [lia | lia | lia | exact Hrs1 |].
    exists rs', seen'. split; [exact Hu|]. split; [exact Hrs'|]. lia.
  - exists rs, seen. split; [reflexivity|]. split; [exact Hrs|]. lia.
Qed.

Lemma get_possible_remainders_total (fuel : nat) (seen : gmap Z Z) :
  (269 < fuel)%nat ->
  exists rs seen',
    get_possible_remainders fuel p current count bound ps seen u = Ok (rs, seen') /\
    Forall (tri_ok current) rs /\ (length rs <= 538)%nat.
Proof.
  intros Hf. unfold get_possible_remainders.
  pose proof (Z.mod_pos_bound current p ltac:(lia)) as Hmod.
  pose proof (Z.div_mod current p ltac:(lia)) as Hdiv.
  destruct (under_loop_total fuel (current / p) (current mod p) [] seen)
    as (rs1 & seen1 & H1 & Hrs1 & Hlen1); [lia | lia | lia | constructor |].
  rewrite H1, bind_Ok_l. cbv beta iota.
  destruct (over_loop_total fuel (current / p + 1) (p - current mod p) rs1 seen1)
    as (rs2 & seen2 & H2 & Hrs2 & Hlen2); [lia | lia | lia | exact Hrs1 |].
  exists rs2, seen2. split; [exact H2|]. split; [exact Hrs2|].
  cbn [length] in Hlen1. lia.
Qed.
End Remainders.

Lemma estimation_total (prime : Z) (fuel : nat) (n : Z) :
  (0 < fuel)%nat -> n < Z.of_nat fuel ->
  exists k, estimation fuel n PRIMES prime = Ok k.
Proof.
  intros Hf Hn. rewrite estimation_unfold.
  apply estimation_loop_total; [apply max_usable_ge_2 | lia].
Qed.

Lemma find_random_solution_loop_total (prime : Z) (u : list Z) (fuel : nat) :
  forall (n index div count : Z) (depth : nat) (pre : list string),
    269 <= n < Z.of_nat fuel -> 2 <= div <= 269 ->
    exists r,
      find_random_solution_loop fuel PRIMES prime (usable prime) u
        index div count depth (pre ++ [str n]) = Ok r.
Proof.
  induction fuel as [|fuel IH]; intros n index div count depth pre Hn Hdiv; [lia|].
  cbn [find_random_solution_loop]. rewrite pop_snoc, bind_Ok_l. cbv beta iota.
  rewrite int_str. cbn [of_option]. rewrite bind_Ok_l.
  destruct fuel as [|fuel]; [lia|]. cbn [step_down].
  destruct (Z.ltb_spec n div) as [Hlt | _]; [lia|].
  rewrite bind_Ok_l. cbv beta iota zeta.
  assert (Hq : n / div < n) by (apply Z.div_lt; lia).
  (destruct (n mod div =? 0); [|destruct (in_set (n mod div) (usable prime))]);
    cbn [negb];
    (destruct (n / div =? 1); [|destruct (in_set (n / div) (usable prime))]);
    cbn [negb orb];
    try (eexists; reflexivity);
    (destruct (Z.ltb_spec (n / div) MIN_NON_DECOMPOSABLE) as [Hs | Hs];
     [ rewrite pop_snoc2, bind_Ok_l; cbv beta iota;
       destruct (decompose (n / div) (usable prime) u) as [expr extra];
       eexists; reflexivity
     | unfold MIN_NON_DECOMPOSABLE in Hs;
       match goal with
       | |- context [find_random_solution_loop _ _ _ _ _ _ _ _ _ (?X ++ [?a; ?b])] =>
           replace (X ++ [a; b]) with ((X ++ [a]) ++ [b])
             by (symmetry; exact (app_assoc _ [_] [_]))
       end;
       apply IH; lia ]).
Qed.

Lemma find_random_solution_total (prime : Z) (u : list Z) (fuel : nat) (n : Z) :
  269 <= n < Z.of_nat fuel ->
  exists r,
    find_random_solution fuel n PRIMES prime (Z.of_nat (length PRIMES) - 1)
      (usable prime) u = Ok r.
Proof.
  intros Hn. unfold find_random_solution.
  change (py_index PRIMES (Z.of_nat (length PRIMES) - 1)) with (Some 97).
  change (py_index PRIMES (Z.of_nat (length PRIMES) - 1 - 1)) with (Some 89).
  cbn [of_option]. rewrite bind_Ok_l.
  change [str n] with ([] ++ [str n]).
  destruct (97 =? prime); cbn [negb of_option]; rewrite bind_Ok_l;
    apply find_random_solution_loop_total; lia.
Qed.

(** *** The queue *)

(** The pending number of a queued node *)
Definition pend (nd : Node) : Z :=
  match last (expression nd) with
  | Some t => default 0 (int t)
  | None => 0
  end.

Definition live (N : Z) (nd : Node) : Prop :=
  exists pre c, expression nd = pre ++ [str c] /\ 269 <= c <= N.

Lemma pend_live (N : Z) (nd : Node) (pre : list string) (c : Z) :
  expression nd = pre ++ [str c] -> pend nd = c.
Proof.
  intros H. unfold pend. rewrite H, last_snoc, int_str. reflexivity.
Qed.

Definition WEIGHT : Z := 20000.

Definition potential (q : list Node) : Z :=
  fold_right (fun nd acc => WEIGHT ^ pend nd + acc) 0 q.

Lemma potential_nonneg (q : list Node) : 0 <= potential q.
Proof.
  induction q as [|nd q IH]; cbn [potential fold_right]; [lia|].
  fold (potential q). pose proof (Z.pow_nonneg WEIGHT (pend nd)) as H.
  unfold WEIGHT in *. lia.
Qed.

Lemma potential_perm (q q' : list Node) : q ≡ₚ q' -> potential q = potential q'.
Proof.
  unfold potential. induction 1; cbn [fold_right]; lia.
Qed.

Lemma potential_cons (nd : Node) (q : list Node) :
  potential (nd :: q) = WEIGHT ^ pend nd + potential q.
Proof. reflexivity. Qed.

Lemma weight_mono (a b : Z) : a <= b -> WEIGHT ^ a <= WEIGHT ^ b.
Proof. intros H. apply Z.pow_le_mono_r; [unfold WEIGHT; lia | exact H]. Qed.

Lemma weight_succ (c : Z) : 1 <= c -> WEIGHT ^ c = 20000 * WEIGHT ^ (c - 1).
Proof.
  intros H. replace c with (Z.succ (c - 1)) at 1 by lia.
  rewrite Z.pow_succ_r by lia. reflexivity.
Qed.

Section Totality.
Context (prime : Z) (fuel : nat) (u : list Z).
Hypothesis Hfuel : (538 < fuel)%nat.

Lemma candidate_total (pre : list string) (depth : nat) (p current : Z) (st : State)
    (c : Z * Z * Z) :
  tri_ok current c -> current <= Z.of_nat fuel ->
  exists st',
    candidate fuel PRIMES prime (usable prime) u pre depth p current st c = Ok st' /\
    (queue st' = queue st \/
     exists nd pre' quot,
       queue st' = heappush Node_lt (queue st) nd /\
       expression nd = pre' ++ [str quot] /\ 269 <= quot < current).
Proof.
  intros Hc Hcur. destruct c as [[nc quot] rem]. cbn [tri_ok] in Hc.
  unfold candidate. cbv zeta.
  destruct (decompose rem (usable prime) u) as [expr0 extra0].
  destruct (p * quot + rem =? current);
    (destruct (rem =? 0); [|destruct (in_set rem (usable prime))]);
    cbn [negb];
    (destruct (quot =? 1); [|destruct (in_set quot (usable prime))]);
    cbn [negb orb];
    (destruct (pruned _ st); [exists st; split; [reflexivity | left; reflexivity]|]);
    try (eexists; split; [reflexivity | left; apply queue_improve]);
    (destruct (Z.ltb_spec quot MIN_NON_DECOMPOSABLE) as [Hs | Hs];
     [ rewrite pop_snoc2, bind_Ok_l; cbv beta iota;
       destruct (decompose quot (usable prime) u) as [expr extra];
       eexists; split; [reflexivity | left; apply queue_improve]
     | unfold MIN_NON_DECOMPOSABLE in Hs;
       destruct (estimation_total prime fuel quot ltac:(lia) ltac:(lia)) as [est Hest];
       rewrite Hest, bind_Ok_l; cbv beta;
       (destruct (pruned _ st); [exists st; split; [reflexivity | left; reflexivity]|]);
       destruct (find_random_solution_total prime u fuel quot ltac:(lia))
         as [[expr mc] Hfrs];
       (destruct (operand_count_result st * DEN >=? _);
        [ rewrite Hfrs, bind_Ok_l; cbv beta iota;
          (destruct (mc + _ <? operand_count_result st);
           [rewrite pop_snoc2, bind_Ok_l; cbv beta iota|])
        |]);
       rewrite bind_Ok_l; cbv beta;
       (eexists; split; [reflexivity|]; right;
        cbn [queue set_queue set_result];
        eexists _, _, quot; split; [reflexivity|];
        split; [cbn [expression]; exact (app_assoc _ [_] [_]) | lia]) ]).
Qed.

Lemma while_remainders_total (pre : list string) (depth : nat) (p current N : Z) :
  current <= Z.of_nat fuel -> 269 <= current <= N ->
  forall (fuel' : nat) (rs : list (Z * Z * Z)) (st : State),
    (length rs < fuel')%nat -> Forall (tri_ok current) rs ->
    Forall (live N) (queue st) ->
    exists st',
      while_remainders fuel PRIMES prime (usable prime) u fuel' pre depth p current rs st
        = Ok st' /\
      Forall (live N) (queue st') /\
      potential (queue st') <=
        potential (queue st) + Z.of_nat (length rs) * WEIGHT ^ (current - 1).
Proof.
  intros Hcf Hcur. pose proof (Z.pow_nonneg WEIGHT (current - 1) ltac:(unfold WEIGHT; lia)) as Hw.
  induction fuel' as [|f IH]; intros rs st Hlen Hrs Hq; [lia|].
  cbn [while_remainders].
  destruct (heappop triple_lt rs) as [[c rs']|] eqn:Hpop.
  - apply heappop_perm in Hpop.
    pose proof (Permutation_length Hpop) as Hl. cbn [length] in Hl.
    rewrite Hpop in Hrs. apply Forall_cons in Hrs. destruct Hrs as [Hc Hrs'].
    destruct (candidate_total pre depth p current st c Hc Hcf) as (st1 & H1 & Hcase).
    rewrite H1, bind_Ok_l.
    assert (Hst1 : Forall (live N) (queue st1) /\
                   potential (queue st1) <= potential (queue st) + WEIGHT ^ (current - 1)).
    { destruct Hcase as [-> | (nd & pre' & quot & -> & He & Hquot)].
      - split; [exact Hq | lia].
      - split.
        + apply heappush_Forall; [|exact Hq]. exists pre', quot. split; [exact He | lia].
        + rewrite (potential_perm _ _ (heappush_perm Node_lt (queue st) nd)).
          rewrite potential_cons, (pend_live N nd pre' quot He).
          pose proof (weight_mono quot (current - 1) ltac:(lia)). lia. }
    destruct Hst1 as [Hq1 Hp1].
    destruct (IH rs' st1) as (st' & H' & Hq' & Hp'); [lia | exact Hrs' | exact Hq1 |].
    exists st'. split; [exact H'|]. split; [exact Hq'|]. rewrite Hl. nia.
  - exists st. split; [reflexivity|]. split; [exact Hq|]. nia.
Qed.

Lemma for_primes_total (pre : list string) (depth : nat) (count current N : Z) :
  current <= Z.of_nat fuel -> 269 <= current <= N ->
  forall (ps : list Z) (st : State),
    (forall p, In p ps -> In p PRIMES) ->
    Forall (live N) (queue st) ->
    exists st',
      for_primes fuel PRIMES prime (usable prime) u ps pre depth count current st = Ok st' /\
      Forall (live N) (queue st') /\
      potential (queue st') <=
        potential (queue st) + Z.of_nat (length ps) * (538 * WEIGHT ^ (current - 1)).
Proof.
  intros Hcf Hcur. pose proof (Z.pow_nonneg WEIGHT (current - 1) ltac:(unfold WEIGHT; lia)) as Hw.
  induction ps as [|p ps IH]; intros st Hps Hq; cbn [for_primes].
  - exists st. split; [reflexivity|]. split; [exact Hq|]. cbn [length]. lia.
  - assert (Hps' : forall x, In x ps -> In x PRIMES)
      by (intros x Hx; apply Hps; right; exact Hx).
    assert (Hskip : exists st',
               for_primes fuel PRIMES prime (usable prime) u ps pre depth count current st
                 = Ok st' /\
               Forall (live N) (queue st') /\
               potential (queue st') <=
                 potential (queue st) +
                 Z.of_nat (length (p :: ps)) * (538 * WEIGHT ^ (current - 1))).
    { destruct (IH st Hps' Hq) as (st' & H' & Hq' & Hp').
      exists st'. split; [exact H'|]. split; [exact Hq'|]. cbn [length]. nia. }
    destruct (p =? prime); cbn [orb]; [exact Hskip|].
    destruct (Z.eqb_spec p 1) as [_ | Hp1]; [exact Hskip|].
    destruct (p >? current); [exact Hskip|]. clear Hskip. cbv zeta.
    pose proof (PRIMES_bounds p (Hps p (or_introl eq_refl))) as Hpb.
    set (bound := get_remainders_bound p _ _).
    destruct (get_possible_remainders_total p count current bound (usable prime) u
                ltac:(lia) ltac:(lia) (fun r => bound_le p r ltac:(lia)) fuel (seen st)
                ltac:(lia)) as (rs & seen' & Hg & Hrs & Hlen).
    rewrite Hg, bind_Ok_l. cbv beta iota.
    destruct (while_remainders_total pre depth p current N Hcf Hcur fuel rs
                (set_seen st seen') ltac:(lia) Hrs Hq) as (st1 & H1 & Hq1 & Hp1').
    rewrite H1, bind_Ok_l.
    destruct (IH st1 Hps' Hq1) as (st' & H' & Hq' & Hp').
    exists st'. split; [exact H'|]. split; [exact Hq'|].
    cbn [queue set_seen] in Hp1'. cbn [length]. nia.
Qed.

Lemma search_loop_total (N : Z) :
  N <= Z.of_nat fuel ->
  forall (fuel' : nat) (st : State),
    Forall (live N) (queue st) -> potential (queue st) < Z.of_nat fuel' ->
    exists st', search_loop fuel PRIMES prime (usable prime) u fuel' st = Ok st'.
Proof.
  intros HN. induction fuel' as [|f IH]; intros st Hq Hpot;
    [pose proof (potential_nonneg (queue st)); lia|].
  cbn [search_loop].
  destruct (heappop Node_lt (queue st)) as [[node q']|] eqn:Hpop;
    [|exists st; reflexivity].
  apply heappop_perm in Hpop.
  rewrite (potential_perm _ _ Hpop), potential_cons in Hpot.
  rewrite Hpop in Hq. apply Forall_cons in Hq. destruct Hq as [Hnode Hq'].
  destruct Hnode as (pre & c & He & Hc).
  rewrite (pend_live N node pre c He) in Hpot.
  pose proof (weight_succ c ltac:(lia)) as Hw.
  pose proof (Z.pow_nonneg WEIGHT (c - 1) ltac:(unfold WEIGHT; lia)) as Hw0.
  assert (Hw1 : 1 <= WEIGHT ^ (c - 1))
    by (change 1 with (WEIGHT ^ 0); apply weight_mono; lia).
  cbv zeta.
  destruct (pruned _ _); [apply IH; [exact Hq' | cbn [queue set_queue]; lia]|].
  rewrite He, pop_snoc, bind_Ok_l. cbv beta iota.
  rewrite int_str. cbn [of_option]. rewrite bind_Ok_l.
  match goal with
  | |- context [if ?b then _ else _] =>
      destruct b; [apply IH; [exact Hq' | cbn [queue set_queue]; lia]|]
  end.
  destruct (for_primes_total pre (depth node) (count node) c N ltac:(lia) Hc PRIMES
              (set_queue st q') (fun p H => H) Hq') as (st2 & H2 & Hq2 & Hp2).
  rewrite H2, bind_Ok_l. apply IH; [exact Hq2|].
  cbn [queue set_queue] in Hp2. change (Z.of_nat (length PRIMES)) with 26 in Hp2. lia.
Qed.
End Totality.

(** C7: for every target and every excluded prime of the list the
    program returns: there is a number of loop iterations, depending on
    the target only, within which [find_expression] has emptied its queue
    and produced its answer; and the greedy solution returns on every
    number the search passes to it. *)
Theorem find_expression_terminates (n prime : Z) :
  In prime PRIMES ->
  (exists F : nat, forall fuel : nat, (F <= fuel)%nat ->
     exists r, find_expression fuel n PRIMES prime = Ok r) /\
  (forall (m : Z) (u : list Z) (fuel : nat), 269 <= m < Z.of_nat fuel ->
     exists r, find_random_solution fuel m PRIMES prime (Z.of_nat (length PRIMES) - 1)
                 (usable prime) u = Ok r).
Proof.
  intros Hprime. split; [|intros m u fuel Hm; apply find_random_solution_total; exact Hm].
  exists (Z.to_nat (WEIGHT ^ n + Z.abs n) + 600)%nat. intros fuel Hf.
  pose proof (Z.pow_nonneg WEIGHT n ltac:(unfold WEIGHT; lia)) as Hw.
  unfold find_expression. destruct (n =? 0).
  - change (py_index PRIMES 0) with (Some 1). change (py_index PRIMES 1) with (Some 2).
    cbn [of_option]. rewrite bind_Ok_l.
    destruct (1 =? prime); cbn [negb of_option]; rewrite bind_Ok_l; eexists; reflexivity.
  - cbv zeta. destruct (in_set n (usable prime)); [eexists; reflexivity|].
    destruct (lookup_table_PRIMES prime Hprime) as (u & Hu & _).
    rewrite Hu. cbn [of_option]. rewrite bind_Ok_l.
    destruct (Z.ltb_spec n MIN_NON_DECOMPOSABLE) as [Hs | Hs].
    + destruct (decompose n (usable prime) u) as [e k]. eexists; reflexivity.
    + unfold MIN_NON_DECOMPOSABLE in Hs.
      destruct (search_loop_total prime fuel u ltac:(lia) n ltac:(lia) fuel
                  (mkState [mkNode [str n] 1 1 1] ∅ [] (n + 1) false)) as [st Hst].
      * constructor; [|constructor]. exists [], n. split; [reflexivity | lia].
      * cbn [queue]. rewrite potential_cons.
        rewrite (pend_live n (mkNode [str n] 1 1 1) [] n eq_refl).
        cbn [potential fold_right]. lia.
      * rewrite Hst, bind_Ok_l. eexists; reflexivity.
Qed.

Lemma find_expression_terminates_witness :
  In 2 PRIMES /\
  (exists F : nat, forall fuel : nat, (F <= fuel)%nat ->
     exists r, find_expression fuel 1000 PRIMES 2 = Ok r) /\
  (forall (m : Z) (u : list Z) (fuel : nat), 269 <= m < Z.of_nat fuel ->
     exists r, find_random_solution fuel m PRIMES 2 (Z.of_nat (length PRIMES) - 1)
                 (usable 2) u = Ok r).
Proof.
  assert (H : In 2 PRIMES) by (right; left; reflexivity).
  split; [exact H | exact (find_expression_terminates 1000 2 H)].
Defined.

(** ** Further properties of the program *)

(** *** The candidates of one division *)

(** What [get_possible_remainders] promises of a triple: the number is
    [p * quotient + remainder] or [p * quotient - remainder], the
    remainder is not negative and within the bound, and the count grew by
    at most 3. *)
Definition triple_ok (p count current : Z) (bound : Q) (t : Z * Z * Z) : Prop :=
  let '(c, quot, rem) := t in
  (p * quot + rem = current \/ p * quot - rem = current) /\
  0 <= rem /\ Qle_bool (inject_Z rem) bound = true /\ count <= c <= count + 3.

Lemma remainder_cost_range (rem : Z) (ps u : list Z) : 1 <= remainder_cost rem ps u <= 3.
Proof.
  unfold remainder_cost. destruct (in_set rem ps); [lia|].
  destruct (negb (in_set rem u)); lia.
Qed.

Lemma record_candidate_Forall (P : Z * Z * Z -> Prop) (nc quot rem : Z)
    (rs rs1 : list (Z * Z * Z)) (seen seen1 : gmap Z Z) :
  record_candidate nc quot rem rs seen = (rs1, seen1) ->
  P (nc, quot, rem) -> Forall P rs -> Forall P rs1.
Proof.
  unfold record_candidate. intros H Hq Hrs.
  destruct (seen !! quot) as [c|]; [destruct (c >? nc)|];
    apply (f_equal fst) in H; cbn [fst] in H; subst rs1;
    first [apply heappush_Forall; assumption | exact Hrs].
Qed.

Section RemaindersSound.
Context (p count current : Z) (bound : Q) (ps u : list Z).
Hypothesis Hp : 1 <= p.

Lemma under_loop_sound (fuel : nat) :
  forall (quot rem : Z) (rs rs' : list (Z * Z * Z)) (seen seen' : gmap Z Z),
    p * quot + rem = current -> 0 <= rem ->
    Forall (triple_ok p count current bound) rs ->
    under_loop fuel p count bound ps u quot rem rs seen = Ok (rs', seen') ->
    Forall (triple_ok p count current bound) rs'.
Proof.
  induction fuel as [|fuel IH]; intros quot rem rs rs' seen seen' Heq Hrem Hrs H;
    cbn [under_loop] in H; [discriminate|].
  destruct (Qle_bool (inject_Z rem) bound) eqn:Hb.
  - cbv zeta in H.
    destruct (record_candidate _ quot rem rs seen) as [rs1 seen1] eqn:Hrc.
    eapply IH; [| | |exact H]; [lia | lia |].
    eapply record_candidate_Forall; [exact Hrc | | exact Hrs].
    cbn [triple_ok]. split; [left; exact Heq|]. split; [exact Hrem|]. split; [exact Hb|].
    pose proof (remainder_cost_range rem ps u).
    destruct (rem =? 0); cbn [negb]; lia.
  - injection H as <- <-. exact Hrs.
Qed.

Lemma over_loop_sound (fuel : nat) :
  forall (quot rem : Z) (rs rs' : list (Z * Z * Z)) (seen seen' : gmap Z Z),
    p * quot - rem = current -> 0 <= rem ->
    Forall (triple_ok p count current bound) rs ->
    over_loop fuel p count bound ps u quot rem rs seen = Ok (rs', seen') ->
    Forall (triple_ok p count current bound) rs'.
Proof.
  induction fuel as [|fuel IH]; intros quot rem rs rs' seen seen' Heq Hrem Hrs H;
    cbn [over_loop] in H; [discriminate|].
  destruct (Qle_bool (inject_Z rem) bound) eqn:Hb.
  - cbv zeta in H.
    destruct (record_candidate _ quot rem rs seen) as [rs1 seen1] eqn:Hrc.
    eapply IH; [| | |exact H]; [lia | lia |].
    eapply record_candidate_Forall; [exact Hrc | | exact Hrs].
    cbn [triple_ok]. split; [right; exact Heq|]. split; [exact Hrem|]. split; [exact Hb|].
    pose proof (remainder_cost_range rem ps u). lia.
  - injection H as <- <-. exact Hrs.
Qed.
End RemaindersSound.

(** X3: every triple [(count, quotient, remainder)] that
    [get_possible_remainders] returns decomposes the current number as its
    docstring says, with a remainder in [0, bound] and a count between the
    given one and the given one plus 3. *)
Theorem get_possible_remainders_sound (fuel : nat) (p current count : Z) (bound : Q)
    (ps : list Z) (seen seen' : gmap Z Z) (u : list Z) (rs : list (Z * Z * Z)) :
  1 <= p ->
  get_possible_remainders fuel p current count bound ps seen u = Ok (rs, seen') ->
  Forall (triple_ok p count current bound) rs.
Proof.
  intros Hp H. unfold get_possible_remainders in H.
  apply bind_Ok in H. destruct H as ([rs1 seen1] & H1 & H2).
  pose proof (Z.mod_pos_bound current p ltac:(lia)) as Hmod.
  pose proof (Z.div_mod current p ltac:(lia)) as Hdiv.
  eapply over_loop_sound; [exact Hp | | | | exact H2]; [lia | lia |].
  eapply under_loop_sound; [exact Hp | | | | exact H1]; [lia | lia | constructor].
Qed.

Lemma get_possible_remainders_sound_witness :
  exists rs seen',
    get_possible_remainders 300 97 300 1 (get_remainders_bound 97 97 269)
      (usable 2) ∅ [] = Ok (rs, seen') /\
    Forall (triple_ok 97 1 300 (get_remainders_bound 97 97 269)) rs.
Proof.
  destruct (get_possible_remainders 300 97 300 1 (get_remainders_bound 97 97 269)
              (usable 2) ∅ []) as [[rs seen']| |] eqn:H.
  - exists rs, seen'. split; [reflexivity|].
    apply (get_possible_remainders_sound 300 97 300 1 _ (usable 2) ∅ seen' [] rs);
      [lia | exact H].
  - vm_compute in H. discriminate H.
  - vm_compute in H. discriminate H.
Defined.

(** *** The tables *)

Lemma cross_products_entries :
  forallb (fun '(n, (p, q)) =>
             (p * q =? n) && (1 <? p) && (1 <? q) && (n <? 269)
             && in_set p PRIMES && in_set q PRIMES)
          (map_to_list CROSS_PRODUCTS) = true.
Proof. vm_compute. reflexivity. Qed.

Lemma cross_products_spec (n p q : Z) :
  CROSS_PRODUCTS !! n = Some (p, q) ->
  p * q = n /\ 1 < p /\ 1 < q /\ n < 269 /\ In p PRIMES /\ In q PRIMES.
Proof.
  intros H. apply elem_of_map_to_list in H. apply list_elem_of_In in H.
  pose proof cross_products_entries as Hall. rewrite forallb_forall in Hall.
  specialize (Hall _ H). cbv beta iota in Hall.
  repeat (apply andb_prop in Hall; let H' := fresh in destruct Hall as [Hall H']).
  repeat match goal with
         | H : in_set _ _ = true |- _ => apply in_set_true in H
         end.
  repeat split; try lia; assumption.
Qed.

(** X4: an entry of [CROSS_PRODUCTS] is a factorisation of its key below
    the threshold into two numbers of [PRIMES] other than 1. *)
Theorem CROSS_PRODUCTS_factor (n p q : Z) :
  CROSS_PRODUCTS !! n = Some (p, q) ->
  p * q = n /\ 1 < p /\ 1 < q /\ n < 269 /\ In p PRIMES /\ In q PRIMES.
Proof. apply cross_products_spec. Qed.

Lemma CROSS_PRODUCTS_factor_witness :
  CROSS_PRODUCTS !! 6 = Some (3, 2) /\
  (3 * 2 = 6 /\ 1 < 3 /\ 1 < 2 /\ 6 < 269 /\ In 3 PRIMES /\ In 2 PRIMES).
Proof.
  assert (H : CROSS_PRODUCTS !! 6 = Some (3, 2)) by (vm_compute; reflexivity).
  split; [exact H | exact (CROSS_PRODUCTS_factor 6 3 2 H)].
Defined.

Lemma in_NUMBERS (n : Z) : In n NUMBERS <-> 1 <= n < 269.
Proof.
  unfold NUMBERS. change (Z.to_nat MIN_NON_DECOMPOSABLE - 1)%nat with 268%nat.
  rewrite in_map_iff. split.
  - intros (k & <- & Hk). apply in_seq in Hk. lia.
  - intros Hn. exists (Z.to_nat n). split; [lia|]. apply in_seq. lia.
Qed.

Lemma reach_generic (l : list Z) (n : Z) :
  In n (map (fun '(x, y) => x + y) (pairs l) ++ map (fun '(x, y) => x - y) (pairs l)
        ++ map (fun '(x, y) => x * y) (pairs l) ++ l) <->
  In n (flat_map (fun '(a, b) => [a + b; a - b; a * b]) (pairs l)) \/ In n l.
Proof.
  rewrite !in_app_iff, !in_map_iff, in_flat_map. split.
  - intros [([x y] & <- & H) | [([x y] & <- & H) | [([x y] & <- & H) | H]]];
      [left; exists (x, y); split; [exact H | cbn [In]; tauto] ..| right; exact H].
  - intros [([x y] & H & Hin) | H]; [|tauto]. cbn [In] in Hin.
    destruct Hin as [<- | [<- | [<- | []]]];
      [left | right; left | right; right; left]; exists (x, y); tauto.
Qed.

Lemma unreachable_generic (l : list Z) (n : Z) :
  In n (List.filter
          (fun x => negb (in_set x
             (map (fun '(x, y) => x + y) (pairs l) ++ map (fun '(x, y) => x - y) (pairs l)
              ++ map (fun '(x, y) => x * y) (pairs l) ++ l))) NUMBERS) <->
  1 <= n < 269 /\ ~ In n l /\
  ~ In n (flat_map (fun '(a, b) => [a + b; a - b; a * b]) (pairs l)).
Proof.
  rewrite filter_In, in_NUMBERS, negb_true_iff, in_set_false, reach_generic. tauto.
Qed.

Lemma lookup_table_map (f : Z -> list Z) (l : list Z) (prime : Z) :
  In prime l -> lookup_table (map (fun p => (p, f p)) l) prime = Some (f prime).
Proof.
  induction l as [|a l IH]; intros H; [destruct H|]. cbn [map lookup_table].
  destruct (Z.eqb_spec a prime) as [-> | Hne]; [reflexivity|].
  apply IH. destruct H as [H | H]; [contradiction | exact H].
Qed.

Lemma lookup_table_None (t : list (Z * list Z)) (prime : Z) :
  ~ In prime (map fst t) -> lookup_table t prime = None.
Proof.
  induction t as [|[p s] t IH]; intros H; [reflexivity|]. cbn [lookup_table].
  cbn [map fst In] in H. destruct (Z.eqb_spec p prime) as [-> | Hne]; [tauto|].
  apply IH. tauto.
Qed.

Lemma UNREACHABLE_eq : UNREACHABLE = get_unreachable_numbers.
Proof. vm_compute. reflexivity. Qed.

(** X5: the set that [UNREACHABLE] holds for an excluded prime consists
    of the numbers from 1 to 268 that are neither a usable prime nor the
    sum, difference or product of two usable primes. *)
Theorem UNREACHABLE_spec (prime : Z) :
  In prime PRIMES ->
  exists u, lookup_table UNREACHABLE prime = Some u /\
    forall n, In n u <->
      1 <= n < 269 /\ ~ In n (usable prime) /\ ~ In n (two_prime_values prime).
Proof.
  intros Hp. exists (unreachable_of prime). split.
  - rewrite UNREACHABLE_eq. unfold get_unreachable_numbers.
    exact (lookup_table_map unreachable_of PRIMES prime Hp).
  - intros n. unfold unreachable_of, two_prime_values, set_without. cbv zeta.
    apply unreachable_generic.
Qed.

Lemma UNREACHABLE_spec_witness :
  In 2 PRIMES /\
  exists u, lookup_table UNREACHABLE 2 = Some u /\
    forall n, In n u <->
      1 <= n < 269 /\ ~ In n (usable 2) /\ ~ In n (two_prime_values 2).
Proof.
  assert (H : In 2 PRIMES) by (right; left; reflexivity).
  split; [exact H | exact (UNREACHABLE_spec 2 H)].
Defined.

(** *** Two-prime decomposition *)

(** The answers of [decompose2], as stacks: nothing, or [b op a] standing
    for the expression [a op b]. *)
Definition two_prime_answer (ps : list Z) (n : Z) (r : list string) : Prop :=
  r = [] \/
  exists a b, In a ps /\ In b ps /\
    ((r = [str b; "+"; str a] /\ a + b = n) \/
     (r = [str b; "-"; str a] /\ a - b = n) \/
     (r = [str b; "*"; str a] /\ a * b = n)).

Lemma decompose2_scan_sound (n : Z) (ps xs : list Z) :
  (forall x, In x xs -> In x ps) -> two_prime_answer ps n (decompose2_scan n ps xs).
Proof.
  induction xs as [|p xs IH]; intros Hxs; cbn [decompose2_scan]; [left; reflexivity|].
  assert (Hp : In p ps) by (apply Hxs; left; reflexivity).
  assert (Hxs' : forall x, In x xs -> In x ps) by (intros x Hx; apply Hxs; right; exact Hx).
  destruct (p <? n); cbv zeta.
  - destruct (in_set (n - p) ps) eqn:Hq; [|apply IH; exact Hxs'].
    apply in_set_true in Hq. right. exists p, (n - p).
    split; [exact Hp|]. split; [exact Hq|]. left. split; [reflexivity | lia].
  - destruct (in_set (p - n) ps) eqn:Hq; [|apply IH; exact Hxs'].
    apply in_set_true in Hq. right. exists p, (p - n).
    split; [exact Hp|]. split; [exact Hq|]. right. left. split; [reflexivity | lia].
Qed.

Lemma decompose2_sound_generic (n : Z) (ps : list Z) :
  (forall x, In x ps -> 1 <= x) -> two_prime_answer ps n (decompose2 n ps).
Proof.
  intros Hps. unfold decompose2.
  destruct (CROSS_PRODUCTS !! n) as [[p q]|] eqn:Hc; cbn [from_option id]; cbv beta iota.
  - apply cross_products_spec in Hc.
    destruct (in_set p ps) eqn:Hp; cbn [andb];
      [|apply decompose2_scan_sound; auto].
    destruct (in_set q ps) eqn:Hq; [|apply decompose2_scan_sound; auto].
    apply in_set_true in Hp, Hq. right. exists p, q.
    split; [exact Hp|]. split; [exact Hq|]. right. right. split; [reflexivity | lia].
  - destruct (in_set 0 ps) eqn:H0;
      [apply in_set_true, Hps in H0; lia|].
    cbn [andb]. apply decompose2_scan_sound. auto.
Qed.

(** X6: for every integer, [decompose2] answers either with nothing or
    with a sum, difference or product of two usable primes that equals the
    number. *)
Theorem decompose2_sound (prime n : Z) :
  two_prime_answer (usable prime) n (decompose2 n (usable prime)).
Proof.
  exact (decompose2_sound_generic n (usable prime)
           (fun x H => proj1 (usable_le_max prime x H))).
Qed.

(** *** The order of the queue *)

(** X7: [Node.__lt__] is asymmetric, hence irreflexive: two nodes are
    never each below the other. *)
Theorem Node_lt_asymmetric (a b : Node) : Node_lt a b && Node_lt b a = false.
Proof.
  unfold Node_lt.
  set (sa := default "" (last (expression a))).
  set (sb := default "" (last (expression b))).
  destruct (Z.ltb_spec (min_result a) (min_result b));
    destruct (Z.ltb_spec (min_result b) (min_result a));
    destruct (Z.eqb_spec (min_result a) (min_result b));
    destruct (Z.eqb_spec (min_result b) (min_result a));
    cbn [orb andb]; try lia; try reflexivity.
  unfold String.ltb. rewrite (String.compare_antisym sb sa).
  destruct (String.compare sa sb); reflexivity.
Qed.

(** *** An excluded number that is not in the list *)

(** X8: when the excluded number is not one of [PRIMES], a target that is
    neither 0 nor in [PRIMES] makes the lookup [UNREACHABLE[prime]] fail
    with a [KeyError], whatever the target. *)
Theorem find_expression_unknown_prime (fuel : nat) (n prime : Z) :
  ~ In prime PRIMES -> n <> 0 -> ~ In n PRIMES ->
  find_expression fuel n PRIMES prime = Raise KeyError.
Proof.
  intros Hprime Hn0 Hn. unfold find_expression.
  destruct (Z.eqb_spec n 0) as [H0 | _]; [contradiction|]. cbv zeta.
  assert (Hin : in_set n (usable prime) = false).
  { apply in_set_false. intros H. apply (proj1 (usable_spec prime n)) in H. tauto. }
  rewrite Hin.
  assert (Hl : lookup_table UNREACHABLE prime = None).
  { apply lookup_table_None. change (map fst UNREACHABLE) with PRIMES. exact Hprime. }
  rewrite Hl. reflexivity.
Qed.

Lemma find_expression_unknown_prime_witness :
  find_expression 10 300 PRIMES 4 = Raise KeyError.
Proof.
  apply (find_expression_unknown_prime 10 300 4); [| lia |];
    intros H; cbn [PRIMES In] in H;
    repeat (destruct H as [H | H]; [discriminate H|]); exact H.
Defined.

(** *** The branching of one division *)

(** X9: for a divisor of the list other than 1 and a number of at least
    269, [get_possible_remainders] returns after fewer than 270 iterations
    of each of its loops, with at most 538 triples, and every quotient is
    smaller than the number: the search descends. *)
Theorem get_possible_remainders_branching (fuel : nat) (p current count : Z)
    (ps : list Z) (seen : gmap Z Z) (u : list Z) :
  2 <= p <= 97 -> 269 <= current -> (269 < fuel)%nat ->
  exists rs seen',
    get_possible_remainders fuel p current count
      (get_remainders_bound p (default 0 (py_index PRIMES (-1))) MIN_NON_DECOMPOSABLE)
      ps seen u = Ok (rs, seen') /\
    Forall (tri_ok current) rs /\ (length rs <= 538)%nat.
Proof.
  intros Hp Hcur Hf.
  apply get_possible_remainders_total; [lia | exact Hcur | | exact Hf].
  intros r. apply bound_le. lia.
Qed.

Lemma get_possible_remainders_branching_witness :
  exists rs seen',
    get_possible_remainders 300 3 1000 1
      (get_remainders_bound 3 (default 0 (py_index PRIMES (-1))) MIN_NON_DECOMPOSABLE)
      (usable 2) ∅ [] = Ok (rs, seen') /\
    Forall (tri_ok 1000) rs /\ (length rs <= 538)%nat.
Proof.
  apply (get_possible_remainders_branching 300 3 1000 1 (usable 2) ∅ []); lia.
Defined.

(** *** The bound the search uses *)

(** X2: with the bounds the search passes ([PRIMES[-1]] and
    [MIN_NON_DECOMPOSABLE]) and a divisor [p] from 2 to 97, an integer
    remainder passes the test [rem <= bound] exactly when it is at most
    [(172 * p + 9237) // 97], a number between 98 and 267. *)
Theorem search_bound_threshold (p r : Z) :
  2 <= p <= 97 ->
  Qle_bool (inject_Z r)
    (get_remainders_bound p (default 0 (py_index PRIMES (-1))) MIN_NON_DECOMPOSABLE)
  = (r <=? (172 * p + 9237) / 97)
  /\ 98 <= (172 * p + 9237) / 97 <= 267.
Proof.
  intros Hp.
  pose proof (Z.div_mod (172 * p + 9237) 97 ltac:(lia)) as Hdm.
  pose proof (Z.mod_pos_bound (172 * p + 9237) 97 ltac:(lia)) as Hmb.
  split; [|lia].
  unfold get_remainders_bound.
  change (default 0 (py_index PRIMES (-1))) with 97.
  change (default 0 (py_index PRIMES 0)) with 1.
  unfold MIN_NON_DECOMPOSABLE. cbv zeta.
  match goal with |- Qle_bool ?a ?b = _ => destruct (Qle_bool a b) eqn:Hb end.
  - apply Qle_bool_iff in Hb. unfold Qle, Qdiv, Qmult, Qinv, inject_Z in Hb. cbn in Hb.
    symmetry. apply Z.leb_le. lia.
  - symmetry. apply Z.leb_gt.
    destruct (Z.lt_ge_cases ((172 * p + 9237) / 97) r) as [Hlt | Hge]; [exact Hlt|].
    exfalso. apply Bool.not_true_iff_false in Hb. apply Hb, Qle_bool_iff.
    unfold Qle, Qdiv, Qmult, Qinv, inject_Z. cbn. lia.
Qed.

Lemma search_bound_threshold_witness :
  Qle_bool (inject_Z 100)
    (get_remainders_bound 3 (default 0 (py_index PRIMES (-1))) MIN_NON_DECOMPOSABLE)
  = (100 <=? (172 * 3 + 9237) / 97)
  /\ 98 <= (172 * 3 + 9237) / 97 <= 267.
Proof. apply (search_bound_threshold 3 100). lia. Defined.

(** ** Negative targets *)





